(** * The concurrent deliverTx scheduler (tasks/scheduler.go)

    A shallow embedding of the scheduler's task model, of its worker pool
    ([executeAll]), of the validation pass ([validateAll]) and of the
    execute/validate/retry loop ([ProcessAll]), followed by the properties
    of the scheduler stated over that embedding.

    Tasks are shared by pointer in the source ([[]*deliverTxTask]).  The
    embedding keeps one task store (a list of task records) and represents
    a pointer by the position of its task in that store, so that [tasks]
    and [toExecute] alias the same records exactly as they do in the code.

    The worker pool is a small-step machine over goroutines, one buffered
    channel and the errgroup.  Its interleaving, the outcome of every
    [select] with two ready cases, and the moment at which the caller's
    context is cancelled are supplied by a schedule. *)

From stdpp Require Import base tactics option list numbers sets.
From Stdlib Require Import ZArith Lia.

Open Scope Z_scope.

(** ** Machine integers *)

(** Go's [int] on the 64-bit targets of the repository: two's complement,
    arithmetic wraps around silently. *)
Definition int_min : Z := - 2 ^ 63.
Definition int_max : Z := 2 ^ 63 - 1.
Definition int_wrap (z : Z) : Z := (z + 2 ^ 63) mod 2 ^ 64 - 2 ^ 63.

(** [x++] on an [int]. *)
Definition int_incr (z : Z) : Z := int_wrap (z + 1).

(** ** Task model *)

(** [type status string] with its four constants. *)
Inductive status : Set :=
  | statusPending
  | statusExecuted
  | statusAborted
  | statusValidated.

#[global] Instance status_eq_dec : EqDecision status.
Proof. solve_decision. Defined.

(** The values [gCtx.Err()] can take once the context is done. *)
Inductive error : Set :=
  | Canceled
  | DeadlineExceeded.

#[global] Instance error_eq_dec : EqDecision error.
Proof. solve_decision. Defined.

(** A pointer to a task: the position of the task in the task store. *)
Abbreviation ptr := nat (only parsing).

(** How a call can end: it returns a value, it panics on a nil pointer
    dereference, or the supply of round schedules ran out before the loop
    of [ProcessAll] was over. *)
Inductive outcome (A : Type) : Type :=
  | Return (a : A)
  | NilDeref
  | OutOfSchedules.
Arguments Return {A} a.
Arguments NilDeref {A}.
Arguments OutOfSchedules {A}.

(** Go's [select] over the two cases the pool uses, [<-gCtx.Done()] and a
    channel operation.  When both are ready the runtime picks one at
    random: the pick is part of the schedule. *)
Inductive choice : Set :=
  | PickDone
  | PickChan.

Definition select (doneReady chanReady : bool) (pick : choice) : option choice :=
  match doneReady, chanReady with
  | true, true => Some pick
  | true, false => Some PickDone
  | false, true => Some PickChan
  | false, false => None
  end.

(** One scheduling decision of a round. *)
Inductive event : Set :=
  | EvCancel (e : error)            (* the caller's context becomes done *)
  | EvProducer (pick : choice)      (* the producer goroutine takes a step *)
  | EvWorker (i : nat) (pick : choice). (* worker [i] takes a step *)

Definition schedule : Set := list event.

Inductive goroutine : Set :=
  | Running
  | Exited.

#[global] Instance goroutine_eq_dec : EqDecision goroutine.
Proof. solve_decision. Defined.

(** The phases of [ProcessAll], used to label the snapshots of a run. *)
Inductive phase : Set :=
  | phToTasks
  | phExecute
  | phValidate
  | phRetry.

#[global] Instance phase_eq_dec : EqDecision phase.
Proof. solve_decision. Defined.

Section Scheduler.

(** [sdk.Context], [types.RequestDeliverTx] and [types.ResponseDeliverTx]
    are opaque to the scheduler. *)
Context {sdkContext RequestDeliverTx ResponseDeliverTx : Type}.

(** [type deliverTxTask struct]; [Response] is a pointer, nil until the
    task has been executed. *)
Record deliverTxTask : Type := mkTask {
  Status : status;
  Index : Z;
  Incarnation : Z;
  Request : RequestDeliverTx;
  Response : option ResponseDeliverTx;
}.

(** [type scheduler struct].  The execution function is a function of the
    context and the request: what it does to the state behind the
    context is out of the scheduler's sight. *)
Record scheduler : Type := NewScheduler {
  workers : Z;
  deliverTx : sdkContext → RequestDeliverTx → ResponseDeliverTx;
}.

(** What a run of the scheduler can observe and change outside its own
    locals: the task store, the state of the caller's context ([None]
    while it is live, [Some e] once it is done with [Err() = e]), and a
    ghost log of the requests handed to [deliverTx].  The log is written
    when a worker receives its task, so it lists the requests in the
    order of receipt; the workers call [deliverTx] concurrently and the
    order of the calls themselves is not determined.  What the log tells
    about the program is which requests were run and how often, not in
    which order. *)
Record world : Type := mkWorld {
  heap : list deliverTxTask;
  ctxErr : option error;
  calls : list RequestDeliverTx;
}.

(** *** Field updates *)

Definition setStatus (s : status) (t : deliverTxTask) : deliverTxTask :=
  mkTask s (Index t) (Incarnation t) (Request t) (Response t).

(** [task.Status = statusExecuted; task.Response = &resp] *)
Definition setExecuted (resp : ResponseDeliverTx) (t : deliverTxTask) : deliverTxTask :=
  mkTask statusExecuted (Index t) (Incarnation t) (Request t) (Some resp).

(** [t.Incarnation++; t.Status = statusPending] *)
Definition resetForRetry (t : deliverTxTask) : deliverTxTask :=
  mkTask statusPending (Index t) (int_incr (Incarnation t)) (Request t) (Response t).

(** ** toTasks *)

(** One freshly allocated task per request; the returned slice holds the
    pointers to them in request order. *)
Definition toTasks (reqs : list RequestDeliverTx) : list deliverTxTask * list ptr :=
  (imap (λ idx r, mkTask statusPending (Z.of_nat idx) 0 r None) reqs,
   seq 0 (length reqs)).

(** ** collectResponses *)

(** [*t.Response] for every task in order; [None] stands for the panic of
    dereferencing a nil [Response]. *)
Fixpoint collectResponses (h : list deliverTxTask) (tasks : list ptr)
  : option (list ResponseDeliverTx) :=
  match tasks with
  | [] => Some []
  | t :: ts =>
      match h !! t ≫= Response with
      | None => None
      | Some r => (r ::.) <$> collectResponses h ts
      end
  end.

(** ** validateAll *)

(** The body of the range loop, with the store and [res] threaded
    through.  A pointer that is not in the store cannot arise (every
    pointer comes from [toTasks]); the loop skips it. *)
Fixpoint validateLoop (h : list deliverTxTask) (tasks res : list ptr)
  : list deliverTxTask * list ptr :=
  match tasks with
  | [] => (h, res)
  | t :: ts =>
      match h !! t with
      | Some tk =>
          if decide (Status tk = statusAborted)
          then validateLoop h ts (res ++ [t])
          else validateLoop (<[t := setStatus statusValidated tk]> h) ts res
      | None => validateLoop h ts res
      end
  end.

(** [validateAll] proper: [var res []*deliverTxTask], the loop, and
    [return res, nil]. *)
Definition validateAll (h : list deliverTxTask) (tasks : list ptr)
  : list deliverTxTask * list ptr * option error :=
  let '(h', res) := validateLoop h tasks [] in (h', res, None).

(** ** The retry step of ProcessAll *)

(** [for _, t := range toExecute { t.Incarnation++; t.Status = statusPending }] *)
Fixpoint retryLoop (h : list deliverTxTask) (toExecute : list ptr)
  : list deliverTxTask :=
  match toExecute with
  | [] => h
  | t :: ts => retryLoop (alter resetForRetry t h) ts
  end.

(** ** executeAll: the worker pool *)

(** The state of one round of the pool. *)
Record pool : Type := mkPool {
  pHeap : list deliverTxTask;       (* the task store *)
  pCalls : list RequestDeliverTx;   (* ghost log of the requests run *)
  pCtxErr : option error;           (* the caller's context *)
  gCtxErr : option error;           (* gCtx, derived by errgroup.WithContext *)
  grpErr : option error;            (* the first error the group recorded *)
  chBuf : list ptr;                 (* ch: buffered tasks, oldest first *)
  chCap : nat;                      (* ch: capacity *)
  chClosed : bool;                  (* ch: closed *)
  producer : goroutine;             (* the goroutine feeding ch *)
  toSend : list ptr;                (* what is left of its range loop *)
  workerG : list goroutine;         (* the worker goroutines *)
}.

Variable s : scheduler.
Variable ctx : sdkContext.

(** [resp := s.deliverTx(ctx, task.Request); task.Status = statusExecuted;
    task.Response = &resp] on the task [t] points to. *)
Definition execTask (h : list deliverTxTask) (t : ptr) : list deliverTxTask :=
  match h !! t with
  | Some tk => <[t := setExecuted (deliverTx s ctx (Request tk)) tk]> h
  | None => h
  end.

(** What that call of [deliverTx] adds to the ghost log. *)
Definition execLog (h : list deliverTxTask) (t : ptr) : list RequestDeliverTx :=
  match h !! t with
  | Some tk => [Request tk]
  | None => []
  end.

(** A goroutine of the group returns [err]: the group keeps the first
    non-nil error and cancels [gCtx] when it records it. *)
Definition grpReturn (err : option error) (g : option error * option error)
  : option error * option error :=
  match err, g with
  | Some e, (gc, None) => (Some (default Canceled gc), Some e)
  | _, _ => g
  end.

(** The caller's context becomes done; [gCtx] is its child. *)
Definition cancelStep (e : error) (p : pool) : option pool :=
  match pCtxErr p with
  | Some _ => None
  | None =>
      Some (mkPool (pHeap p) (pCalls p) (Some e)
              (Some (default e (gCtxErr p))) (grpErr p)
              (chBuf p) (chCap p) (chClosed p) (producer p) (toSend p) (workerG p))
  end.

(** One step of the producer goroutine: the next iteration of its range
    loop, or the return after the loop.  [defer close(ch)] runs on both
    returns. *)
Definition producerStep (pick : choice) (p : pool) : option pool :=
  match producer p with
  | Exited => None
  | Running =>
      match toSend p with
      | [] =>
          Some (mkPool (pHeap p) (pCalls p) (pCtxErr p) (gCtxErr p) (grpErr p)
                  (chBuf p) (chCap p) true Exited [] (workerG p))
      | t :: rest =>
          match select (bool_decide (is_Some (gCtxErr p)))
                       (bool_decide (length (chBuf p) < chCap p)%nat) pick with
          | None => None
          | Some PickDone =>
              let '(gc, ge) := grpReturn (gCtxErr p) (gCtxErr p, grpErr p) in
              Some (mkPool (pHeap p) (pCalls p) (pCtxErr p) gc ge
                      (chBuf p) (chCap p) true Exited (t :: rest) (workerG p))
          | Some PickChan =>
              Some (mkPool (pHeap p) (pCalls p) (pCtxErr p) (gCtxErr p) (grpErr p)
                      (chBuf p ++ [t]) (chCap p) (chClosed p) Running rest (workerG p))
          end
      end
  end.

(** One iteration of the loop of worker [i].  A receive is ready when the
    buffer holds a task or the channel is closed; a closed channel hands
    out what is buffered before it reports [!ok].  The task received is
    executed in the same step.  A task is handed to one worker only and
    nothing else reads or writes it during the round, so this does not
    change the store, the context or the error a round ends with; it
    does fix an order of the calls of [deliverTx] of different workers
    that the program leaves open. *)
Definition workerStep (i : nat) (pick : choice) (p : pool) : option pool :=
  match workerG p !! i with
  | Some Running =>
      match select (bool_decide (is_Some (gCtxErr p)))
                   (bool_decide (chBuf p ≠ []) || chClosed p) pick with
      | None => None
      | Some PickDone =>
          let '(gc, ge) := grpReturn (gCtxErr p) (gCtxErr p, grpErr p) in
          Some (mkPool (pHeap p) (pCalls p) (pCtxErr p) gc ge
                  (chBuf p) (chCap p) (chClosed p) (producer p) (toSend p)
                  (<[i := Exited]> (workerG p)))
      | Some PickChan =>
          match chBuf p with
          | task :: buf =>
              Some (mkPool (execTask (pHeap p) task) (pCalls p ++ execLog (pHeap p) task)
                      (pCtxErr p) (gCtxErr p) (grpErr p)
                      buf (chCap p) (chClosed p) (producer p) (toSend p) (workerG p))
          | [] =>
              Some (mkPool (pHeap p) (pCalls p) (pCtxErr p) (gCtxErr p) (grpErr p)
                      [] (chCap p) (chClosed p) (producer p) (toSend p)
                      (<[i := Exited]> (workerG p)))
          end
      end
  | _ => None
  end.

(** [None]: the event is not enabled in [p]. *)
Definition step (ev : event) (p : pool) : option pool :=
  match ev with
  | EvCancel e => cancelStep e p
  | EvProducer pick => producerStep pick p
  | EvWorker i pick => workerStep i pick p
  end.

(** Events that are not enabled when their turn comes are passed over. *)
Fixpoint runSchedule (sched : schedule) (p : pool) : pool :=
  match sched with
  | [] => p
  | ev :: sched' => runSchedule sched' (default p (step ev p))
  end.

(** [grp.Wait()] blocks until every goroutine has returned.  Once the
    schedule is used up, the goroutines still running are run to their
    end in a fixed order: the producer first, then the workers by
    position, each taking the channel case of its [select] when it can. *)
Definition nextEvent (p : pool) : option event :=
  match producer p with
  | Running => Some (EvProducer PickChan)
  | Exited =>
      (λ i, EvWorker (fst i) PickChan) <$> list_find (λ g, g = Running) (workerG p)
  end.

(** At most [fuel] steps of that fixed order; [stepsLeft] is enough fuel
    to reach the end of the round (see [drain_inv]). *)
Fixpoint drain (fuel : nat) (p : pool) : pool :=
  match fuel with
  | O => p
  | S fuel' =>
      match nextEvent p with
      | None => p
      | Some ev => drain fuel' (default p (step ev p))
      end
  end.

(** A bound on the number of steps a pool can still take. *)
Definition stepsLeft (p : pool) : nat :=
  (2 * length (toSend p) + length (chBuf p)
   + match producer p with Running => 1 | Exited => 0 end
   + length (filter (λ g, g = Running) (workerG p))
   + match pCtxErr p with Some _ => 0 | None => 1 end)%nat.

(** The pool as [executeAll] sets it up before any goroutine runs. *)
Definition spawn (wd : world) (tasks : list ptr) : pool :=
  (* a workers value < 1 means no limit *)
  let n := if bool_decide (workers s < 1) then Z.of_nat (length tasks) else workers s in
  mkPool (heap wd) (calls wd) (ctxErr wd) (ctxErr wd) None
    [] (length tasks) false Running tasks (replicate (Z.to_nat n) Running).

(** [executeAll]: set the pool up, let it run, and return what
    [grp.Wait()] returns. *)
Definition executeAll (sched : schedule) (wd : world) (tasks : list ptr)
  : world * option error :=
  let p := runSchedule sched (spawn wd tasks) in
  let p' := drain (stepsLeft p) p in
  (mkWorld (pHeap p') (pCtxErr p') (pCalls p'), grpErr p').

(** ** ProcessAll *)

(** The Go result pair [([]types.ResponseDeliverTx, error)]. *)
Definition result : Type := option (list ResponseDeliverTx) * option error.

(** The store as it stands after each phase, in the order of execution. *)
Definition trace : Type := list (phase * world).

(** The [for len(toExecute) > 0] loop followed by the final return.  Each
    round consumes the schedule of its execution phase. *)
Fixpoint processLoop (scheds : list schedule) (wd : world)
    (tasks toExecute : list ptr) (tr : trace) : trace * outcome result :=
  match toExecute with
  | [] =>
      (tr, match collectResponses (heap wd) tasks with
           | Some rs => Return (Some rs, None)
           | None => NilDeref
           end)
  | _ :: _ =>
      match scheds with
      | [] => (tr, OutOfSchedules)
      | sched :: scheds' =>
          let '(wd1, err) := executeAll sched wd toExecute in
          let tr1 := tr ++ [(phExecute, wd1)] in
          match err with
          | Some e => (tr1, Return (None, Some e))
          | None =>
              let '(h2, toExecute', err') := validateAll (heap wd1) tasks in
              let wd2 := mkWorld h2 (ctxErr wd1) (calls wd1) in
              let tr2 := tr1 ++ [(phValidate, wd2)] in
              match err' with
              | Some e => (tr2, Return (None, Some e))
              | None =>
                  let wd3 := mkWorld (retryLoop h2 toExecute') (ctxErr wd2) (calls wd2) in
                  processLoop scheds' wd3 tasks toExecute' (tr2 ++ [(phRetry, wd3)])
              end
          end
      end
  end.

(** [c] is the state of the caller's context on entry. *)
Definition ProcessAllRun (c : option error) (scheds : list schedule)
    (reqs : list RequestDeliverTx) : trace * outcome result :=
  let '(h, tasks) := toTasks reqs in
  let wd := mkWorld h c [] in
  processLoop scheds wd tasks tasks [(phToTasks, wd)].

(** What the caller gets. *)
Definition ProcessAll (c : option error) (scheds : list schedule)
    (reqs : list RequestDeliverTx) : outcome result :=
  snd (ProcessAllRun c scheds reqs).

(** * Notions used to state the properties *)

(** What [execTask] leaves in a task. *)
Definition executed (tk : deliverTxTask) : deliverTxTask :=
  setExecuted (deliverTx s ctx (Request tk)) tk.

(** Running the tasks of [ts] one after the other. *)
Definition execTasks (h : list deliverTxTask) (ts : list ptr) : list deliverTxTask :=
  foldl execTask h ts.

(** The requests this runs, listed in the order of the slice. *)
Definition execLogs (h : list deliverTxTask) (ts : list ptr) : list RequestDeliverTx :=
  ts ≫= execLog h.

(** [T] is the slice the round was started on, [h0] and [c0] the store and
    the call log at that moment, [ran] the tasks executed so far. *)
Record poolInv (T : list ptr) (h0 : list deliverTxTask)
    (c0 : list RequestDeliverTx) (ran : list ptr) (p : pool) : Prop := {
  inv_split : T = ran ++ chBuf p ++ toSend p;
  inv_heap : pHeap p = execTasks h0 ran;
  inv_calls : pCalls p = c0 ++ execLogs h0 ran;
  inv_cap : chCap p = length T;
  inv_closed : chClosed p = true ↔ producer p = Exited;
  inv_sent : producer p = Exited → grpErr p = None → toSend p = [];
  inv_drained : ∀ i, workerG p !! i = Some Exited → grpErr p = None →
                     chClosed p = true ∧ chBuf p = [];
  inv_staffed : workerG p = [] → T = [];
  inv_gctx : grpErr p = None → gCtxErr p = pCtxErr p;
  inv_err : ∀ e, grpErr p = Some e → pCtxErr p = Some e;
}.

(** Every goroutine of the group has returned: [grp.Wait()] returns. *)
Definition terminal (p : pool) : Prop :=
  producer p = Exited ∧ Forall (λ g, g = Exited) (workerG p).

(** The event is the cancellation of the caller's context. *)
Definition isCancel (ev : event) : bool :=
  match ev with EvCancel _ => true | _ => false end.

(** Nothing has been cancelled and the group has recorded no error. *)
Definition quiet (p : pool) : Prop :=
  pCtxErr p = None ∧ gCtxErr p = None ∧ grpErr p = None.

(** The task [t] points to is marked aborted in [h]. *)
Definition aborted (h : list deliverTxTask) (t : ptr) : Prop :=
  Status <$> h !! t = Some statusAborted.

#[global] Instance aborted_dec h t : Decision (aborted h t).
Proof. unfold aborted. apply _. Defined.

(** What one iteration of [validateAll] leaves in a task. *)
Definition validated (tk : deliverTxTask) : deliverTxTask :=
  if decide (Status tk = statusAborted) then tk else setStatus statusValidated tk.

(** The data-model invariant: a task carries a response exactly when it is
    executed or validated. *)
Definition responseInv (tk : deliverTxTask) : Prop :=
  is_Some (Response tk) ↔ Status tk = statusExecuted ∨ Status tk = statusValidated.

(** The store of a batch whose tasks have all been executed once and
    stand at status [st]. *)
Definition doneTasks (st : status) (reqs : list RequestDeliverTx) : list deliverTxTask :=
  imap (λ idx r, mkTask st (Z.of_nat idx) 0 r (Some (deliverTx s ctx r))) reqs.

(** How the incarnations of a store may differ from those of the store of
    the snapshot before: every task is still there, and its incarnation is
    the same, or one more if the phase between the two was the retry step. *)
Definition incStep (ph : phase) (w w' : world) : Prop :=
  ∀ t tk, heap w !! t = Some tk →
    ∃ tk', heap w' !! t = Some tk'
           ∧ (Incarnation tk' = Incarnation tk
              ∨ (ph = phRetry ∧ Incarnation tk' = Incarnation tk + 1)).

(** The pool as [grp.Wait()] finds it when it returns. *)
Definition finalPool (sched : schedule) (wd : world) (tasks : list ptr) : pool :=
  let p := runSchedule sched (spawn wd tasks) in drain (stepsLeft p) p.

(** A run of the pool in which every event is enabled when its turn
    comes; [None] when one is not. *)
Fixpoint runEnabled (evs : list event) (p : pool) : option pool :=
  match evs with
  | [] => Some p
  | ev :: evs' => step ev p ≫= runEnabled evs'
  end.

(** The number of worker goroutines [executeAll] starts on a slice. *)
Definition poolSize (tasks : list ptr) : nat :=
  Z.to_nat (if bool_decide (workers s < 1) then Z.of_nat (length tasks) else workers s).

(** * Properties *)

(** ** Machine integers *)

Lemma int_incr_below_max (z : Z) :
  int_min ≤ z < int_max → int_incr z = z + 1.
Proof.
  unfold int_incr, int_wrap, int_min, int_max. intros Hz.
  rewrite Z.mod_small; lia.
Qed.

(** ** The task store under execution *)

Lemma executed_idemp tk : executed (executed tk) = executed tk.
Proof. reflexivity. Qed.

Lemma execTask_alter h t : execTask h t = alter executed t h.
Proof.
  unfold execTask. destruct (h !! t) as [tk|] eqn:Ht.
  - apply list_eq. intros i. destruct (decide (t = i)) as [<-|Hne].
    + rewrite list_lookup_insert_eq by (by eapply lookup_lt_Some).
      by rewrite list_lookup_alter_eq, Ht.
    + by rewrite list_lookup_insert_ne, list_lookup_alter_ne.
  - symmetry. apply list_eq. intros i. destruct (decide (t = i)) as [<-|Hne].
    + by rewrite list_lookup_alter_eq, Ht.
    + by rewrite list_lookup_alter_ne.
Qed.

Lemma execTask_length h t : length (execTask h t) = length h.
Proof. rewrite execTask_alter. apply length_alter. Qed.

Lemma execLog_execTask h t t' : execLog (execTask h t') t = execLog h t.
Proof.
  unfold execLog. rewrite execTask_alter.
  destruct (decide (t' = t)) as [->|Hne].
  - rewrite list_lookup_alter_eq. by destruct (h !! t).
  - by rewrite list_lookup_alter_ne.
Qed.

Lemma execTasks_snoc h ts t : execTasks h (ts ++ [t]) = execTask (execTasks h ts) t.
Proof. unfold execTasks. by rewrite foldl_app. Qed.

Lemma execLog_execTasks h ts t : execLog (execTasks h ts) t = execLog h t.
Proof.
  induction ts as [|t' ts IH] using rev_ind; [done|].
  by rewrite execTasks_snoc, execLog_execTask.
Qed.

Lemma execLogs_snoc h ts t : execLogs h (ts ++ [t]) = execLogs h ts ++ execLog h t.
Proof. unfold execLogs. rewrite bind_app. simpl. by rewrite app_nil_r. Qed.

Lemma execTasks_length h ts : length (execTasks h ts) = length h.
Proof.
  induction ts as [|t ts IH] using rev_ind; [done|].
  by rewrite execTasks_snoc, execTask_length.
Qed.

(** The store after a batch of executions, task by task: a task that was
    run holds its response, every other task is as it was. *)
Lemma execTasks_lookup h ts t :
  execTasks h ts !! t = (if decide (t ∈ ts) then executed <$> h !! t else h !! t).
Proof.
  induction ts as [|t' ts IH] using rev_ind.
  - simpl. destruct (decide (t ∈ [])) as [Hin|]; [|done]. by apply not_elem_of_nil in Hin.
  - rewrite execTasks_snoc, execTask_alter.
    destruct (decide (t' = t)) as [->|Hne].
    + rewrite list_lookup_alter_eq, IH.
      rewrite (decide_True (P := t ∈ ts ++ [t])) by (apply elem_of_app; right; apply list_elem_of_singleton; done).
      destruct (decide (t ∈ ts)); [|done].
      destruct (h !! t); simpl; [|done]. by rewrite executed_idemp.
    + rewrite list_lookup_alter_ne, IH by done.
      destruct (decide (t ∈ ts)).
      * rewrite decide_True; [done|]. apply elem_of_app. by left.
      * rewrite decide_False; [done|]. intros [?|Hin]%elem_of_app; [done|].
        apply list_elem_of_singleton in Hin. by subst.
Qed.

(** ** The worker pool: invariant of a round *)

Lemma select_done d c pick : select d c pick = Some PickDone → d = true.
Proof. by destruct d, c, pick. Qed.

Lemma select_chan d c pick : select d c pick = Some PickChan → c = true.
Proof. by destruct d, c, pick. Qed.

Lemma spawn_inv wd tasks :
  poolInv tasks (heap wd) (calls wd) [] (spawn wd tasks).
Proof.
  split; simpl; try done.
  - unfold execLogs. simpl. by rewrite app_nil_r.
  - intros i [Hi _]%lookup_replicate. done.
  - case_bool_decide as Hw.
    + rewrite Nat2Z.id. by destruct tasks.
    + intros Hnil. apply (f_equal length) in Hnil.
      rewrite length_replicate in Hnil. simpl in Hnil. lia.
Qed.

Lemma insert_nil_inv {A} (l : list A) i x : <[i:=x]> l = [] → l = [].
Proof. intros H. apply (f_equal length) in H. rewrite length_insert in H. by destruct l. Qed.

Lemma step_inv T h0 c0 ran ev p p' :
  poolInv T h0 c0 ran p → step ev p = Some p' →
  ∃ ran', poolInv T h0 c0 ran' p' ∧ ran `prefix_of` ran'.
Proof.
  intros [Hsplit Hheap Hcalls Hcap Hclosed Hsent Hdrained Hstaffed Hgctx Herr] Hstep.
  destruct ev as [e|pick|i pick]; simpl in Hstep.
  - (* the context is cancelled *)
    unfold cancelStep in Hstep. destruct (pCtxErr p) eqn:Hc; [done|].
    simplify_eq. exists ran. split; [|done]. split; simpl; try done.
    + intros Hg. by rewrite (Hgctx Hg).
    + intros e' He'. by apply Herr in He'.
  - (* the producer *)
    unfold producerStep in Hstep.
    destruct (producer p) eqn:Hprod; [|done].
    destruct (toSend p) as [|t rest] eqn:Hsend.
    + simplify_eq. exists ran. split; [|done]. split; simpl; try done.
      intros i Hi Hg. destruct (Hdrained i Hi Hg) as [Hcl _].
      apply Hclosed in Hcl. congruence.
    + destruct (select _ _ pick) as [[]|] eqn:Hsel; [| |done].
      * apply select_done, bool_decide_eq_true in Hsel. destruct Hsel as [e He].
        rewrite He in Hstep. simpl in Hstep.
        destruct (grpErr p) as [e0|] eqn:Hg; simplify_eq;
          (exists ran; split; [|done]; split; simpl; try done).
        intros e' [= <-]. by rewrite <- Hgctx.
      * simplify_eq. exists ran. split; [|done]. split; simpl; try done.
        -- by rewrite <- (assoc_L (++)).
        -- intros i Hi Hg. destruct (Hdrained i Hi Hg) as [Hcl _].
           apply Hclosed in Hcl. congruence.
  - (* worker [i] *)
    unfold workerStep in Hstep.
    destruct (workerG p !! i) as [[]|] eqn:Hw; [|done|done].
    destruct (select _ _ pick) as [[]|] eqn:Hsel; [| |done].
    + apply select_done, bool_decide_eq_true in Hsel. destruct Hsel as [e He].
      rewrite He in Hstep. simpl in Hstep.
      destruct (grpErr p) as [e0|] eqn:Hg; simplify_eq;
        (exists ran; split; [|done]; split; simpl; try done).
      * intros Hnil%insert_nil_inv. auto.
      * intros Hnil%insert_nil_inv. auto.
      * intros e' [= <-]. by rewrite <- Hgctx.
    + destruct (chBuf p) as [|task buf] eqn:Hbuf; simplify_eq.
      * apply select_chan in Hsel. simpl in Hsel.
        exists ran. split; [|done]. split; simpl; try done.
        intros Hnil%insert_nil_inv. auto.
      * exists (ran ++ [task]). split; [|by apply prefix_app_r].
        split; simpl; try done.
        -- by rewrite <- (assoc_L (++)).
        -- by rewrite execTasks_snoc, Hheap.
        -- by rewrite execLogs_snoc, Hcalls, Hheap, execLog_execTasks, (assoc_L (++)).
        -- intros j Hj Hg. by destruct (Hdrained j Hj Hg).
Qed.

(** ** The worker pool: every round comes to an end *)

Lemma nextEvent_None p : nextEvent p = None ↔ terminal p.
Proof.
  unfold nextEvent, terminal. destruct (producer p).
  - split; [done|]. by intros [? _].
  - rewrite fmap_None, list_find_None. split.
    + intros Hall. split; [done|]. eapply Forall_impl; [exact Hall|].
      intros []; naive_solver.
    + intros [_ Hall]. eapply Forall_impl; [exact Hall|]. naive_solver.
Qed.

Lemma running_exit (l : list goroutine) i :
  l !! i = Some Running →
  (length (filter (λ g, g = Running) (<[i:=Exited]> l))
   < length (filter (λ g, g = Running) l))%nat.
Proof.
  revert i. induction l as [|g l IH]; intros [|i] Hi; simplify_eq/=.
  - rewrite filter_cons_False by done. lia.
  - specialize (IH i Hi). destruct g.
    + rewrite !filter_cons_True by done. simpl. lia.
    + rewrite !filter_cons_False by done. done.
Qed.

(** Whatever the schedule, a step uses up [stepsLeft]. *)
Lemma step_decreases ev p p' :
  step ev p = Some p' → (stepsLeft p' < stepsLeft p)%nat.
Proof.
  intros Hstep. destruct ev as [e|pick|i pick]; simpl in Hstep.
  - unfold cancelStep in Hstep. destruct (pCtxErr p) eqn:Hc; [done|].
    simplify_eq. unfold stepsLeft. simpl. rewrite Hc. lia.
  - unfold producerStep in Hstep.
    destruct (producer p) eqn:Hprod; [|done].
    destruct (toSend p) as [|t rest] eqn:Hsend.
    + simplify_eq. unfold stepsLeft. simpl. rewrite Hprod, Hsend. simpl. lia.
    + destruct (select _ _ pick) as [[]|] eqn:Hsel; [| |done].
      * destruct (grpReturn _ _) as [gc ge]. simplify_eq.
        unfold stepsLeft. simpl. rewrite Hprod, Hsend. simpl. lia.
      * simplify_eq. unfold stepsLeft. simpl.
        rewrite Hprod, Hsend, length_app. simpl. lia.
  - unfold workerStep in Hstep.
    destruct (workerG p !! i) as [[]|] eqn:Hw; [|done|done].
    pose proof (running_exit _ _ Hw) as Hlt.
    destruct (select _ _ pick) as [[]|] eqn:Hsel; [| |done].
    + destruct (grpReturn _ _) as [gc ge]. simplify_eq.
      unfold stepsLeft. simpl. lia.
    + destruct (chBuf p) as [|task buf] eqn:Hbuf; simplify_eq;
        unfold stepsLeft; simpl; rewrite ?Hbuf; simpl; lia.
Qed.

(** No deadlock: while a goroutine is running, the one [grp.Wait()] is
    waiting for next can take its step. *)
Lemma nextEvent_enabled T h0 c0 ran p ev :
  poolInv T h0 c0 ran p → nextEvent p = Some ev → is_Some (step ev p).
Proof.
  intros Hinv Hev. unfold nextEvent in Hev.
  destruct (producer p) eqn:Hprod.
  - simplify_eq. simpl. unfold producerStep. rewrite Hprod.
    destruct (toSend p) as [|t rest] eqn:Hsend; [done|].
    assert (length (chBuf p) < chCap p)%nat as Hroom.
    { rewrite (inv_cap _ _ _ _ _ Hinv), (inv_split _ _ _ _ _ Hinv), Hsend.
      rewrite !length_app. simpl. lia. }
    rewrite (bool_decide_eq_true_2 _ Hroom).
    by destruct (bool_decide (is_Some (gCtxErr p))).
  - apply fmap_Some in Hev as [[i g] [Hfind ->]].
    apply list_find_Some in Hfind as (Hi & -> & _). simpl.
    unfold workerStep. rewrite Hi.
    assert (chClosed p = true) as Hcl by (by apply (inv_closed _ _ _ _ _ Hinv)).
    rewrite Hcl, orb_true_r.
    destruct (bool_decide (is_Some (gCtxErr p))); simpl; by destruct (chBuf p).
Qed.

Lemma runSchedule_inv T h0 c0 sched : ∀ ran p,
  poolInv T h0 c0 ran p →
  ∃ ran', poolInv T h0 c0 ran' (runSchedule sched p) ∧ ran `prefix_of` ran'.
Proof.
  induction sched as [|ev sched IH]; intros ran p Hinv; simpl.
  - by exists ran.
  - destruct (step ev p) as [p'|] eqn:Hstep; simpl; [|by apply IH].
    destruct (step_inv _ _ _ _ _ _ _ Hinv Hstep) as (ran1 & Hinv1 & Hpre1).
    destruct (IH _ _ Hinv1) as (ran2 & Hinv2 & Hpre2).
    exists ran2. split; [done|]. by etrans.
Qed.

Lemma drain_inv T h0 c0 fuel : ∀ ran p,
  poolInv T h0 c0 ran p → (stepsLeft p ≤ fuel)%nat →
  ∃ ran', poolInv T h0 c0 ran' (drain fuel p) ∧ ran `prefix_of` ran'
          ∧ terminal (drain fuel p).
Proof.
  induction fuel as [|fuel IH]; intros ran p Hinv Hfuel; simpl.
  - exists ran. split_and!; [done..|]. apply nextEvent_None.
    destruct (nextEvent p) as [ev|] eqn:Hev; [|done].
    destruct (nextEvent_enabled _ _ _ _ _ _ Hinv Hev) as [p' Hstep].
    apply step_decreases in Hstep. lia.
  - destruct (nextEvent p) as [ev|] eqn:Hev.
    + destruct (nextEvent_enabled _ _ _ _ _ _ Hinv Hev) as [p' Hstep].
      rewrite Hstep. simpl.
      destruct (step_inv _ _ _ _ _ _ _ Hinv Hstep) as (ran1 & Hinv1 & Hpre1).
      pose proof (step_decreases _ _ _ Hstep) as Hlt.
      destruct (IH _ _ Hinv1) as (ran2 & Hinv2 & Hpre2 & Hterm); [lia|].
      exists ran2. split_and!; [done| |done]. by etrans.
    + exists ran. split_and!; [done..|]. by apply nextEvent_None.
Qed.

(** ** executeAll: what a round leaves behind *)

Lemma terminal_clean T h0 c0 ran p :
  poolInv T h0 c0 ran p → terminal p → grpErr p = None → ran = T.
Proof.
  intros Hinv [Hprod Hall] Hg.
  pose proof (inv_split _ _ _ _ _ Hinv) as Hsplit.
  rewrite (inv_sent _ _ _ _ _ Hinv Hprod Hg), app_nil_r in Hsplit.
  destruct (workerG p) as [|g gs] eqn:Hw.
  - pose proof (inv_staffed _ _ _ _ _ Hinv Hw) as HT. rewrite HT in Hsplit.
    symmetry in Hsplit. apply app_eq_nil in Hsplit as [-> _]. done.
  - apply Forall_cons in Hall as [-> _].
    destruct (inv_drained _ _ _ _ _ Hinv 0%nat) as [_ Hbuf]; [by rewrite Hw|done|].
    by rewrite Hbuf, app_nil_r in Hsplit.
Qed.

(** A round executes a prefix of the tasks it was given and
    touches nothing else.  When it reports no error the prefix is the
    whole slice; when it reports an error, the error is the one of the
    caller's context. *)
Lemma executeAll_spec sched wd tasks wd' err :
  executeAll sched wd tasks = (wd', err) →
  ∃ ran, ran `prefix_of` tasks
         ∧ heap wd' = execTasks (heap wd) ran
         ∧ calls wd' = calls wd ++ execLogs (heap wd) ran
         ∧ (err = None → ran = tasks)
         ∧ (∀ e, err = Some e → ctxErr wd' = Some e).
Proof.
  unfold executeAll. intros [= <- <-].
  destruct (runSchedule_inv _ _ _ sched _ _ (spawn_inv wd tasks)) as (ran1 & Hinv1 & _).
  destruct (drain_inv _ _ _ _ _ _ Hinv1 (Nat.le_refl _)) as (ran & Hinv & _ & Hterm).
  exists ran. simpl. split_and!.
  - rewrite (inv_split _ _ _ _ _ Hinv). by apply prefix_app_r.
  - apply (inv_heap _ _ _ _ _ Hinv).
  - apply (inv_calls _ _ _ _ _ Hinv).
  - intros Hg. by eapply terminal_clean.
  - apply (inv_err _ _ _ _ _ Hinv).
Qed.

Lemma step_quiet ev p p' :
  quiet p → isCancel ev = false → step ev p = Some p' → quiet p'.
Proof.
  intros (Hc & Hgc & Hg) Hev Hstep. destruct ev as [e|pick|i pick]; [done|..]; simpl in Hstep.
  - unfold producerStep in Hstep. rewrite Hgc in Hstep.
    rewrite bool_decide_eq_false_2 in Hstep by (by intros [? ?]).
    destruct (producer p); [|done]. destruct (toSend p) as [|t rest].
    + by simplify_eq.
    + destruct (select _ _ pick) as [[]|] eqn:Hsel; [| |done].
      * by apply select_done in Hsel.
      * by simplify_eq.
  - unfold workerStep in Hstep. rewrite Hgc in Hstep.
    rewrite bool_decide_eq_false_2 in Hstep by (by intros [? ?]).
    destruct (workerG p !! i) as [[]|]; [|done|done].
    destruct (select _ _ pick) as [[]|] eqn:Hsel; [| |done].
    + by apply select_done in Hsel.
    + destruct (chBuf p); by simplify_eq.
Qed.

Lemma nextEvent_not_cancel p ev : nextEvent p = Some ev → isCancel ev = false.
Proof.
  unfold nextEvent. destruct (producer p); [by intros [= <-]|].
  intros [? [_ ->]]%fmap_Some. done.
Qed.

Lemma runSchedule_quiet sched : ∀ p,
  quiet p → Forall (λ ev, isCancel ev = false) sched → quiet (runSchedule sched p).
Proof.
  induction sched as [|ev sched IH]; intros p Hq Hall; simpl; [done|].
  apply Forall_cons in Hall as [Hev Hall]. apply IH; [|done].
  destruct (step ev p) as [p'|] eqn:Hstep; simpl; [|done]. by eapply step_quiet.
Qed.

Lemma drain_quiet fuel : ∀ p, quiet p → quiet (drain fuel p).
Proof.
  induction fuel as [|fuel IH]; intros p Hq; simpl; [done|].
  destruct (nextEvent p) as [ev|] eqn:Hev; [|done]. apply IH.
  destruct (step ev p) as [p'|] eqn:Hstep; simpl; [|done].
  eapply step_quiet; [done| |done]. by eapply nextEvent_not_cancel.
Qed.

Lemma executeAll_live sched wd tasks :
  ctxErr wd = None → Forall (λ ev, isCancel ev = false) sched →
  snd (executeAll sched wd tasks) = None.
Proof.
  intros Hc Hall. unfold executeAll. simpl.
  apply drain_quiet, runSchedule_quiet; [|done]. by repeat split.
Qed.

(** ** Loops that update the tasks of a slice in place *)

Lemma foldl_alter_lookup {A} (f : A → A) (h : list A) (ts : list ptr) (t : ptr) :
  NoDup ts ∨ (∀ x, f (f x) = f x) →
  foldl (λ h t, alter f t h) h ts !! t
  = (if decide (t ∈ ts) then f <$> h !! t else h !! t).
Proof.
  intros Hf. induction ts as [|t' ts IH] using rev_ind.
  - destruct (decide (t ∈ [])) as [Hin|]; [by apply not_elem_of_nil in Hin|done].
  - assert (NoDup ts ∨ (∀ x, f (f x) = f x)) as Hf'.
    { destruct Hf as [Hnd|]; [left|by right]. by apply NoDup_app in Hnd as [? _]. }
    rewrite foldl_app. simpl. destruct (decide (t' = t)) as [->|Hne].
    + rewrite list_lookup_alter_eq, (IH Hf').
      rewrite (decide_True (P := t ∈ ts ++ [t]))
        by (apply elem_of_app; right; by apply list_elem_of_singleton).
      destruct (decide (t ∈ ts)) as [Hin|]; [|done].
      destruct Hf as [Hnd|Hidem].
      * apply NoDup_app in Hnd as (_ & Hnd & _). exfalso.
        apply (Hnd t Hin). by apply list_elem_of_singleton.
      * destruct (h !! t); simpl; [|done]. by rewrite Hidem.
    + rewrite list_lookup_alter_ne, (IH Hf') by done.
      destruct (decide (t ∈ ts)).
      * rewrite decide_True; [done|]. apply elem_of_app. by left.
      * rewrite decide_False; [done|]. intros [?|Hin]%elem_of_app; [done|].
        apply list_elem_of_singleton in Hin. by subst.
Qed.

Lemma foldl_alter_length {A} (f : A → A) (ts : list ptr) : ∀ h : list A,
  length (foldl (λ h t, alter f t h) h ts) = length h.
Proof.
  induction ts as [|t ts IH]; intros h; simpl; [done|].
  by rewrite IH, length_alter.
Qed.

(** ** validateAll *)

Lemma validated_idemp tk : validated (validated tk) = validated tk.
Proof. unfold validated. destruct tk as [[] ? ? ? ?]; reflexivity. Qed.

Lemma validated_aborted tk :
  Status (validated tk) = statusAborted ↔ Status tk = statusAborted.
Proof. unfold validated. destruct tk as [[] ? ? ? ?]; simpl; naive_solver. Qed.

Lemma aborted_alter_validated h t t' : aborted (alter validated t' h) t ↔ aborted h t.
Proof.
  unfold aborted. destruct (decide (t' = t)) as [->|Hne].
  - rewrite list_lookup_alter_eq. destruct (h !! t) as [tk|]; simpl; [|done].
    split; intros [= H]; f_equal; by apply validated_aborted.
  - by rewrite list_lookup_alter_ne.
Qed.

(** The loop of [validateAll] in closed form: the store has [validated]
    applied to the tasks of the slice, and [res] has grown by the pointers
    whose task was aborted on entry, in slice order. *)
Lemma validateLoop_spec tasks : ∀ h res,
  validateLoop h tasks res
  = (foldl (λ h t, alter validated t h) h tasks, res ++ filter (aborted h) tasks).
Proof.
  induction tasks as [|t ts IH]; intros h res; simpl.
  - by rewrite app_nil_r.
  - assert (filter (aborted (alter validated t h)) ts = filter (aborted h) ts) as Hfil.
    { apply list_filter_iff. intros t'. apply aborted_alter_validated. }
    destruct (h !! t) as [tk|] eqn:Ht.
    + destruct (decide (Status tk = statusAborted)) as [Hab|Hab].
      * assert (alter validated t h = h) as Hsame.
        { apply list_eq. intros i. destruct (decide (t = i)) as [<-|Hne].
          - rewrite list_lookup_alter_eq, Ht. simpl. unfold validated. by rewrite decide_True.
          - by rewrite list_lookup_alter_ne. }
        rewrite IH, Hsame.
        rewrite filter_cons_True by (unfold aborted; rewrite Ht; simpl; by f_equal).
        by rewrite <- (assoc_L (++)).
      * assert (<[t:=setStatus statusValidated tk]> h = alter validated t h) as ->.
        { apply list_eq. intros i. destruct (decide (t = i)) as [<-|Hne].
          - rewrite list_lookup_insert_eq by (by eapply lookup_lt_Some).
            rewrite list_lookup_alter_eq, Ht. simpl. unfold validated. by rewrite decide_False.
          - by rewrite list_lookup_insert_ne, list_lookup_alter_ne. }
        rewrite IH, Hfil.
        by rewrite filter_cons_False by (unfold aborted; rewrite Ht; simpl; by intros [= ?]).
    + assert (alter validated t h = h) as Hsame.
      { apply list_eq. intros i. destruct (decide (t = i)) as [<-|Hne].
        - by rewrite list_lookup_alter_eq, Ht.
        - by rewrite list_lookup_alter_ne. }
      rewrite IH, Hsame.
      by rewrite filter_cons_False by (unfold aborted; by rewrite Ht).
Qed.

Lemma validateAll_eq h tasks :
  validateAll h tasks
  = (foldl (λ h t, alter validated t h) h tasks, filter (aborted h) tasks, None).
Proof. unfold validateAll. by rewrite validateLoop_spec. Qed.

Lemma validateAll_lookup h tasks t :
  (validateAll h tasks).1.1 !! t
  = (if decide (t ∈ tasks) then validated <$> h !! t else h !! t).
Proof.
  rewrite validateAll_eq. simpl. apply foldl_alter_lookup. right. apply validated_idemp.
Qed.

(** ** The retry step *)

Lemma retryLoop_eq toExecute : ∀ h,
  retryLoop h toExecute = foldl (λ h t, alter resetForRetry t h) h toExecute.
Proof. induction toExecute as [|t ts IH]; intros h; simpl; [done|]. apply IH. Qed.

Lemma retryLoop_lookup h toExecute t :
  NoDup toExecute →
  retryLoop h toExecute !! t
  = (if decide (t ∈ toExecute) then resetForRetry <$> h !! t else h !! t).
Proof. intros Hnd. rewrite retryLoop_eq. apply foldl_alter_lookup. by left. Qed.

(** ** One round over a fresh batch *)

Lemma filter_none {A} (P : A → Prop) `{!∀ x, Decision (P x)} (l : list A) :
  (∀ x, x ∈ l → ¬ P x) → filter P l = [].
Proof.
  induction l as [|x l IH]; intros Hl; [done|].
  rewrite filter_cons_False by (apply Hl; by left).
  apply IH. intros y Hy. apply Hl. by right.
Qed.

Lemma toTasks_lookup reqs t :
  (toTasks reqs).1 !! t
  = (λ r, mkTask statusPending (Z.of_nat t) 0 r None) <$> reqs !! t.
Proof. unfold toTasks. simpl. apply list_lookup_imap. Qed.

Lemma doneTasks_lookup st reqs t :
  doneTasks st reqs !! t
  = (λ r, mkTask st (Z.of_nat t) 0 r (Some (deliverTx s ctx r))) <$> reqs !! t.
Proof. unfold doneTasks. apply list_lookup_imap. Qed.

Lemma execTasks_fresh reqs :
  execTasks (toTasks reqs).1 (seq 0 (length reqs)) = doneTasks statusExecuted reqs.
Proof.
  apply list_eq. intros t.
  rewrite execTasks_lookup, toTasks_lookup, doneTasks_lookup.
  destruct (reqs !! t) as [r|] eqn:Hr; simpl.
  - rewrite decide_True; [done|].
    apply elem_of_seq. apply lookup_lt_Some in Hr. lia.
  - by destruct (decide _).
Qed.

Lemma execLogs_seq (h : list deliverTxTask) : ∀ pre,
  execLogs (pre ++ h) (seq (length pre) (length h)) = Request <$> h.
Proof.
  induction h as [|tk h IH]; intros pre; [done|].
  unfold execLogs in *. simpl. unfold execLog at 1.
  rewrite list_lookup_middle by done. simpl. f_equal.
  specialize (IH (pre ++ [tk])).
  by rewrite <- (assoc_L (++)), length_app, Nat.add_1_r in IH.
Qed.

Lemma execLogs_fresh reqs :
  execLogs (toTasks reqs).1 (seq 0 (length reqs)) = reqs.
Proof.
  pose proof (execLogs_seq (toTasks reqs).1 []) as H.
  change (length []) with 0%nat in H. change ([] ++ ?l) with l in H.
  replace (length (toTasks reqs).1) with (length reqs) in H by (symmetry; apply length_imap).
  rewrite H. apply list_eq. intros i. rewrite list_lookup_fmap, toTasks_lookup.
  by destruct (reqs !! i).
Qed.

Lemma validateAll_executed reqs :
  validateAll (doneTasks statusExecuted reqs) (seq 0 (length reqs))
  = (doneTasks statusValidated reqs, [], None).
Proof.
  rewrite validateAll_eq. f_equal. f_equal.
  - apply list_eq. intros t.
    rewrite foldl_alter_lookup by (right; apply validated_idemp).
    rewrite !doneTasks_lookup.
    destruct (reqs !! t) as [r|] eqn:Hr; simpl.
    + rewrite decide_True; [done|].
      apply elem_of_seq. apply lookup_lt_Some in Hr. lia.
    + by destruct (decide _).
  - apply filter_none. intros t _. unfold aborted.
    rewrite doneTasks_lookup. by destruct (reqs !! t).
Qed.

Lemma collectResponses_Some h tasks rs :
  collectResponses h tasks = Some rs
  ↔ Forall2 (λ t r, h !! t ≫= Response = Some r) tasks rs.
Proof.
  revert rs. induction tasks as [|t ts IH]; intros rs; simpl.
  - split; [intros [= <-]; constructor|by intros ->%Forall2_nil_inv_l].
  - destruct (h !! t ≫= Response) as [r|] eqn:Hr.
    + rewrite fmap_Some. split.
      * intros (rs' & Hrs & ->). constructor; [done|]. by apply IH.
      * intros (r' & rs' & Hr' & Hrs' & ->)%Forall2_cons_inv_l.
        exists rs'. split; [by apply IH|]. congruence.
    + split; [done|]. intros (r' & rs' & Hr' & _)%Forall2_cons_inv_l. congruence.
Qed.

Lemma collectResponses_done st reqs :
  collectResponses (doneTasks st reqs) (seq 0 (length reqs))
  = Some (deliverTx s ctx <$> reqs).
Proof.
  apply collectResponses_Some, Forall2_same_length_lookup_2.
  - by rewrite length_seq, length_fmap.
  - intros i t r [-> Hi]%lookup_seq Hr. simpl.
    rewrite list_lookup_fmap in Hr. rewrite doneTasks_lookup.
    destruct (reqs !! i); by simplify_eq/=.
Qed.

Lemma processLoop_nil scheds wd tasks tr :
  processLoop scheds wd tasks [] tr
  = (tr, match collectResponses (heap wd) tasks with
         | Some rs => Return (Some rs, None)
         | None => NilDeref
         end).
Proof. by destruct scheds. Qed.

(** What [ProcessAll] does on a batch that is not empty: one round, which
    either fails in its execution phase or leaves every task validated
    with the response of its request. *)
Lemma ProcessAllRun_round c sched scheds reqs :
  reqs ≠ [] →
  let wd0 := mkWorld (toTasks reqs).1 c [] in
  ProcessAllRun c (sched :: scheds) reqs
  = match executeAll sched wd0 (toTasks reqs).2 with
    | (wd1, Some e) => ([(phToTasks, wd0); (phExecute, wd1)], Return (None, Some e))
    | (wd1, None) =>
        let wd2 := mkWorld (doneTasks statusValidated reqs) (ctxErr wd1) reqs in
        ([(phToTasks, wd0);
          (phExecute, mkWorld (doneTasks statusExecuted reqs) (ctxErr wd1) reqs);
          (phValidate, wd2); (phRetry, wd2)],
         Return (Some (deliverTx s ctx <$> reqs), None))
    end.
Proof.
  intros Hne wd0. unfold ProcessAllRun.
  change (toTasks reqs) with ((toTasks reqs).1, seq 0 (length reqs)).
  cbv iota beta. fold wd0. simpl snd.
  destruct reqs as [|r reqs']; [done|]. set (reqs := r :: reqs') in *.
  change (seq 0 (length reqs)) with (0%nat :: seq 1 (length reqs')) at 2.
  cbn [processLoop].
  change (0%nat :: seq 1 (length reqs')) with (seq 0 (length reqs)).
  destruct (executeAll sched wd0 (seq 0 (length reqs))) as [wd1 [e|]] eqn:Hex; [done|].
  apply executeAll_spec in Hex as (ran & _ & Hheap & Hcalls & Hran & _).
  rewrite (Hran eq_refl) in Hheap, Hcalls. subst wd0. cbn [heap calls] in Hheap, Hcalls.
  rewrite execTasks_fresh in Hheap. rewrite execLogs_fresh, app_nil_l in Hcalls.
  rewrite Hheap, validateAll_executed. cbv iota beta. cbn [retryLoop].
  rewrite processLoop_nil. cbn [heap calls ctxErr].
  rewrite collectResponses_done, Hcalls.
  destruct wd1 as [h1 c1 l1]. simpl in *. by subst.
Qed.

Lemma ProcessAllRun_empty c scheds :
  ProcessAllRun c scheds [] = ([(phToTasks, mkWorld [] c [])], Return (Some [], None)).
Proof. by destruct scheds. Qed.

(** ** The snapshots of a run *)

Lemma ProcessAllRun_starved c reqs :
  reqs ≠ [] →
  ProcessAllRun c [] reqs
  = ([(phToTasks, mkWorld (toTasks reqs).1 c [])], OutOfSchedules).
Proof. by destruct reqs. Qed.

(** Every store a run goes through is the fresh batch with some of its
    tasks executed, or the batch with all of its tasks validated. *)
Lemma trace_heaps c scheds reqs ph wd :
  (ph, wd) ∈ (ProcessAllRun c scheds reqs).1 →
  (∃ ran, heap wd = execTasks (toTasks reqs).1 ran)
  ∨ heap wd = doneTasks statusValidated reqs.
Proof.
  destruct (decide (reqs = [])) as [->|Hne].
  - rewrite ProcessAllRun_empty. simpl. intros [= -> ->]%list_elem_of_singleton.
    left. by exists [].
  - destruct scheds as [|sched scheds].
    + rewrite ProcessAllRun_starved by done. simpl.
      intros [= -> ->]%list_elem_of_singleton. left. by exists [].
    + rewrite ProcessAllRun_round by done. cbv zeta.
      destruct (executeAll _ _ _) as [wd1 [e|]] eqn:Hex; simpl.
      * apply executeAll_spec in Hex as (ran & _ & Hheap & _).
        rewrite !elem_of_cons, elem_of_nil.
        intros [[= -> ->]|[[= -> ->]|[]]]; left; [by exists []|by exists ran].
      * rewrite !elem_of_cons, elem_of_nil.
        intros [[= -> ->]|[[= -> ->]|[[= -> ->]|[[= -> ->]|[]]]]]; simpl.
        -- left. by exists [].
        -- left. exists (seq 0 (length reqs)). symmetry. apply execTasks_fresh.
        -- by right.
        -- by right.
Qed.

Lemma executed_responseInv tk : responseInv (executed tk).
Proof. unfold responseInv. simpl. split; [by left|by eexists]. Qed.

Lemma trace_task c scheds reqs ph wd t tk :
  (ph, wd) ∈ (ProcessAllRun c scheds reqs).1 → heap wd !! t = Some tk →
  responseInv tk ∧ Incarnation tk = 0 ∧ Status tk ≠ statusAborted.
Proof.
  intros [[ran Hh]|Hh]%trace_heaps; rewrite Hh.
  - rewrite execTasks_lookup, toTasks_lookup.
    destruct (reqs !! t) as [r|], (decide (t ∈ ran)); intros [= <-]; simpl.
    + split; [apply executed_responseInv|done].
    + split; [|done]. unfold responseInv. simpl. split; [by intros [? ?]|by intros [|]].
  - rewrite doneTasks_lookup. destruct (reqs !! t) as [r|]; intros [= <-]; simpl.
    split; [|done]. unfold responseInv. simpl. split; [by right|by eexists].
Qed.

Lemma trace_length c scheds reqs ph wd :
  (ph, wd) ∈ (ProcessAllRun c scheds reqs).1 → length (heap wd) = length reqs.
Proof.
  intros [[ran Hh]|Hh]%trace_heaps; rewrite Hh.
  - rewrite execTasks_length. apply length_imap.
  - apply length_imap.
Qed.

(** * The scheduler's contract *)

(** C1.  With the execution function a pure function of the request (it is
    one here) and no task ever aborted (none is, see
    [ProcessAll_single_round]), [ProcessAll] returns the result of strict
    sequential execution: whatever the schedule of the pool, it returns
    either the list [deliverTx] maps the requests to, in request order
    and with no error, or no list and the error of its context; and when
    the context stays live throughout it returns the list.  The list has
    the length of the batch and holds at [i] the response to request [i]. *)
Theorem ProcessAll_sequential c sched scheds reqs :
  let out := deliverTx s ctx <$> reqs in
  (ProcessAll c (sched :: scheds) reqs = Return (Some out, None)
   ∨ ∃ e, ProcessAll c (sched :: scheds) reqs = Return (None, Some e))
  ∧ (c = None → Forall (λ ev, isCancel ev = false) sched →
     ProcessAll c (sched :: scheds) reqs = Return (Some out, None))
  ∧ length out = length reqs
  ∧ (∀ i req, reqs !! i = Some req → out !! i = Some (deliverTx s ctx req)).
Proof.
  intros out. unfold ProcessAll. split_and!.
  - destruct (decide (reqs = [])) as [->|Hne].
    + rewrite ProcessAllRun_empty. by left.
    + rewrite ProcessAllRun_round by done. cbv zeta.
      destruct (executeAll _ _ _) as [wd1 [e|]]; [right; by exists e|by left].
  - intros -> Hlive. destruct (decide (reqs = [])) as [->|Hne].
    + by rewrite ProcessAllRun_empty.
    + rewrite ProcessAllRun_round by done. cbv zeta.
      pose proof (executeAll_live sched (mkWorld (toTasks reqs).1 None [])
                    (toTasks reqs).2 eq_refl Hlive) as Herr.
      destruct (executeAll _ _ _) as [wd1 err]. simpl in Herr. by subst err.
  - apply length_fmap.
  - intros i req Hreq. subst out. by rewrite list_lookup_fmap, Hreq.
Qed.

(** C3.  [validateAll] returns exactly the pointers of its slice whose task
    was aborted on entry, in slice order, and never an error; a task of
    the slice that was not aborted is validated afterwards, its other
    fields untouched; aborted tasks and tasks outside the slice are left
    as they were. *)
Theorem validateAll_flags_aborted h tasks h' res err :
  validateAll h tasks = (h', res, err) →
  res = filter (aborted h) tasks
  ∧ err = None
  ∧ (∀ t tk, t ∈ tasks → h !! t = Some tk → Status tk ≠ statusAborted →
       h' !! t = Some (setStatus statusValidated tk))
  ∧ (∀ t tk, h !! t = Some tk → Status tk = statusAborted → h' !! t = Some tk)
  ∧ (∀ t, t ∉ tasks → h' !! t = h !! t)
  ∧ length h' = length h.
Proof.
  intros Hv. pose proof (validateAll_lookup h tasks) as Hlook.
  rewrite Hv in Hlook. simpl in Hlook. rewrite validateAll_eq in Hv.
  injection Hv as Hh <- <-. split_and!; [done|done|..].
  - intros t tk Hin Ht Hst. rewrite Hlook, decide_True, Ht by done. simpl.
    unfold validated. by rewrite decide_False.
  - intros t tk Ht Hst. rewrite Hlook, Ht. simpl. unfold validated.
    rewrite (decide_True (P := Status tk = statusAborted)) by done. by destruct (decide _).
  - intros t Hnin. by rewrite Hlook, decide_False.
  - rewrite <- Hh. apply foldl_alter_length.
Qed.

(** C4.  When the execution phase of a round returns an error, the loop
    stops there and [ProcessAll] returns that error with a nil response
    list; the error is the one the caller's context is done with. *)
Theorem executeAll_error_fails_batch :
  (∀ sched scheds wd tasks t ts tr wd1 e,
     executeAll sched wd (t :: ts) = (wd1, Some e) →
     processLoop (sched :: scheds) wd tasks (t :: ts) tr
     = (tr ++ [(phExecute, wd1)], Return (None, Some e)))
  ∧ (∀ c sched scheds reqs wd1 e,
       reqs ≠ [] →
       executeAll sched (mkWorld (toTasks reqs).1 c []) (toTasks reqs).2 = (wd1, Some e) →
       ProcessAll c (sched :: scheds) reqs = Return (None, Some e)
       ∧ ctxErr wd1 = Some e).
Proof.
  split.
  - intros sched scheds wd tasks t ts tr wd1 e Hex. cbn [processLoop]. by rewrite Hex.
  - intros c sched scheds reqs wd1 e Hne Hex. unfold ProcessAll.
    rewrite ProcessAllRun_round by done. cbv zeta. rewrite Hex. split; [done|].
    apply executeAll_spec in Hex as (ran & _ & _ & _ & _ & Herr). by apply Herr.
Qed.

(** C7.  Validation is idempotent.  A task that is validated stays
    validated, field for field, when [validateAll] runs, and is not
    reported for re-execution; and running [validateAll] again on the
    store it has just left changes nothing and reports the same tasks. *)
Theorem validateAll_idempotent h tasks h' res err t tk :
  validateAll h tasks = (h', res, err) →
  h !! t = Some tk → Status tk = statusValidated →
  h' !! t = Some tk ∧ (t ∉ res) ∧ validateAll h' tasks = (h', res, err).
Proof.
  intros Hv Ht Hst. pose proof (validateAll_lookup h tasks) as Hlook.
  rewrite Hv in Hlook. simpl in Hlook. rewrite validateAll_eq in Hv.
  injection Hv as Hh <- <-.
  assert (validated tk = tk) as Hval.
  { unfold validated. rewrite decide_False by (rewrite Hst; done).
    destruct tk; simpl in *; by subst. }
  split_and!.
  - rewrite Hlook, Ht. simpl. rewrite Hval. by destruct (decide _).
  - intros [Hab _]%list_elem_of_filter. unfold aborted in Hab.
    rewrite Ht in Hab. simpl in Hab. congruence.
  - rewrite validateAll_eq. f_equal. f_equal.
    + apply list_eq. intros t'.
      rewrite foldl_alter_lookup by (right; apply validated_idemp).
      rewrite Hlook. destruct (decide (t' ∈ tasks)); [|done].
      destruct (h !! t'); simpl; [|done]. by rewrite validated_idemp.
    + apply list_filter_iff. intros t'. unfold aborted. rewrite Hlook.
      destruct (decide (t' ∈ tasks)); [|done].
      destruct (h !! t') as [tk'|]; simpl; [|done].
      split; intros [= H]; f_equal; by apply validated_aborted.
Qed.

(** C10.  On the empty batch [ProcessAll] returns an empty, non-nil
    response list and no error, whatever the state of the context and the
    worker count.  The run consists of [toTasks] alone: no round is
    started and the log of [deliverTx] calls stays empty. *)
Theorem ProcessAll_empty_batch c scheds :
  ProcessAll c scheds [] = Return (Some [], None)
  ∧ ProcessAllRun c scheds [] = ([(phToTasks, mkWorld [] c [])], Return (Some [], None)).
Proof. unfold ProcessAll. by rewrite ProcessAllRun_empty. Qed.

(** A task [validateAll] reports is aborted in the store it leaves. *)
Lemma flagged_aborted h tasks h1 flagged err t :
  validateAll h tasks = (h1, flagged, err) → t ∈ flagged → aborted h1 t.
Proof.
  intros Hv Hin. pose proof (validateAll_lookup h tasks t) as Hlook.
  rewrite Hv in Hlook. simpl in Hlook. rewrite validateAll_eq in Hv.
  injection Hv as _ <- _. apply list_elem_of_filter in Hin as [Hab Hin].
  unfold aborted in *. rewrite Hlook, decide_True by done.
  destruct (h !! t) as [tk|]; simplify_eq/=. f_equal. by apply validated_aborted.
Qed.

Lemma flagged_NoDup h tasks h1 flagged err :
  validateAll h tasks = (h1, flagged, err) → NoDup tasks → NoDup flagged.
Proof.
  rewrite validateAll_eq. intros [= _ <- _] Hnd. by apply NoDup_filter.
Qed.

(** C2.  The retry step, run on the tasks [validateAll] has just reported
    in a store that satisfies the response invariant, leaves each of them
    with its incarnation incremented by one, status pending and no
    response, and the invariant holds of the whole store afterwards: only
    aborted tasks are reported, and under the invariant those carry no
    response.  And in every run of [ProcessAll] the invariant holds of
    every task after every phase. *)
Theorem retry_keeps_response_invariant :
  (∀ h tasks h1 flagged err,
     validateAll h tasks = (h1, flagged, err) → NoDup tasks →
     Forall responseInv h1 →
     (∀ t tk, t ∈ flagged → h1 !! t = Some tk →
        int_min ≤ Incarnation tk < int_max →
        ∃ tk', retryLoop h1 flagged !! t = Some tk'
               ∧ Incarnation tk' = Incarnation tk + 1
               ∧ Status tk' = statusPending
               ∧ Response tk' = None)
     ∧ Forall responseInv (retryLoop h1 flagged))
  ∧ (∀ c scheds reqs ph wd,
       (ph, wd) ∈ (ProcessAllRun c scheds reqs).1 → Forall responseInv (heap wd)).
Proof.
  split.
  - intros h tasks h1 flagged err Hv Hnd Hinv.
    pose proof (flagged_NoDup _ _ _ _ _ Hv Hnd) as Hnd'.
    assert (∀ t tk, t ∈ flagged → h1 !! t = Some tk → Response tk = None) as Hflag.
    { intros t tk Hin Ht. pose proof (flagged_aborted _ _ _ _ _ _ Hv Hin) as Hab.
      unfold aborted in Hab. rewrite Ht in Hab. injection Hab as Hab.
      pose proof (Forall_lookup_1 _ _ _ _ Hinv Ht) as [Hresp _].
      destruct (Response tk); [|done]. destruct Hresp; [by eexists|congruence..]. }
    split.
    + intros t tk Hin Ht Hrange. exists (resetForRetry tk).
      rewrite retryLoop_lookup, decide_True, Ht by done.
      split_and!; [done| |done|exact (Hflag t tk Hin Ht)].
      simpl. by apply int_incr_below_max.
    + apply Forall_lookup_2. intros t tk'.
      rewrite retryLoop_lookup by done. destruct (decide (t ∈ flagged)) as [Hin|].
      * destruct (h1 !! t) as [tk|] eqn:Ht; intros [= <-].
        pose proof (Hflag t tk Hin Ht) as Hnone.
        unfold responseInv. simpl. rewrite Hnone.
        split; [by intros [? ?]|by intros [|]].
      * by apply Forall_lookup_1.
  - intros c scheds reqs ph wd Hin. apply Forall_lookup_2. intros t tk Ht.
    by destruct (trace_task _ _ _ _ _ _ _ Hin Ht).
Qed.

(** C9.  [ProcessAll] never dereferences a nil [Response]: no run ends in
    the panic, and when a run returns without an error, every task of the
    store [collectResponses] reads has its response present, so that
    [collectResponses] yields a list. *)
Theorem collectResponses_never_nil c scheds reqs :
  ProcessAll c scheds reqs ≠ NilDeref
  ∧ (∀ tr rs, ProcessAllRun c scheds reqs = (tr, Return (rs, None)) →
       ∃ ph wd, last tr = Some (ph, wd)
                ∧ length (heap wd) = length reqs
                ∧ Forall (λ tk, is_Some (Response tk)) (heap wd)
                ∧ rs = collectResponses (heap wd) (toTasks reqs).2
                ∧ is_Some rs).
Proof.
  unfold ProcessAll. destruct (decide (reqs = [])) as [->|Hne].
  - rewrite ProcessAllRun_empty. split; [done|]. intros tr rs [= <- <-].
    eexists _, _. split; [done|]. simpl. split_and!; [done|constructor|done|by eexists].
  - destruct scheds as [|sched scheds].
    + rewrite ProcessAllRun_starved by done. split; [done|]. by intros tr rs [= _ ?].
    + rewrite ProcessAllRun_round by done. cbv zeta.
      destruct (executeAll _ _ _) as [wd1 [e|]]; (split; [done|]); [by intros tr rs [= _ ?]|].
      intros tr rs [= <- <-]. eexists _, _. split; [done|]. simpl. split_and!.
      * apply length_imap.
      * apply Forall_lookup_2. intros t tk. rewrite doneTasks_lookup.
        destruct (reqs !! t); intros [= <-]. by eexists.
      * symmetry. apply collectResponses_done.
      * by eexists.
Qed.

(** C6.  Incarnations start at 0 and only grow.  [toTasks] builds every
    task at incarnation 0; the execution phase and the validation phase
    leave incarnations alone; the retry step adds exactly one to the
    incarnation of each task it is given and leaves the others alone.
    Along every run of [ProcessAll], from one snapshot to the next, no
    incarnation decreases or is reset, and the first execution phase
    starts from the store of [toTasks], at incarnation 0. *)
Theorem incarnation_only_grows :
  (∀ reqs t tk, (toTasks reqs).1 !! t = Some tk → Incarnation tk = 0)
  ∧ (∀ sched wd tasks wd' err t,
       executeAll sched wd tasks = (wd', err) →
       Incarnation <$> heap wd' !! t = Incarnation <$> heap wd !! t)
  ∧ (∀ h tasks t,
       Incarnation <$> (validateAll h tasks).1.1 !! t = Incarnation <$> h !! t)
  ∧ (∀ h flagged t tk,
       NoDup flagged → h !! t = Some tk → int_min ≤ Incarnation tk < int_max →
       Incarnation <$> retryLoop h flagged !! t
       = Some (if decide (t ∈ flagged) then Incarnation tk + 1 else Incarnation tk))
  ∧ (∀ c scheds reqs,
       let tr := (ProcessAllRun c scheds reqs).1 in
       tr !! 0%nat = Some (phToTasks, mkWorld (toTasks reqs).1 c [])
       ∧ (∀ ph1 wd1, tr !! 1%nat = Some (ph1, wd1) → ph1 = phExecute)
       ∧ (∀ i ph w ph' w',
            tr !! i = Some (ph, w) → tr !! S i = Some (ph', w') → incStep ph' w w')).
Proof.
  split_and!.
  - intros reqs t tk. rewrite toTasks_lookup.
    destruct (reqs !! t); by intros [= <-].
  - intros sched wd tasks wd' err t (ran & _ & -> & _)%executeAll_spec.
    rewrite execTasks_lookup. destruct (decide _); [|done]. by destruct (heap wd !! t).
  - intros h tasks t. rewrite validateAll_lookup. destruct (decide _); [|done].
    destruct (h !! t) as [tk|]; simpl; [|done].
    unfold validated. by destruct (decide _).
  - intros h flagged t tk Hnd Ht Hrange. rewrite retryLoop_lookup, Ht by done.
    destruct (decide _); simpl; [|done]. by rewrite int_incr_below_max.
  - intros c scheds reqs tr. split_and!.
    + subst tr. destruct (decide (reqs = [])) as [->|Hne].
      * by rewrite ProcessAllRun_empty.
      * destruct scheds as [|sched scheds].
        -- by rewrite ProcessAllRun_starved.
        -- rewrite ProcessAllRun_round by done. cbv zeta.
           by destruct (executeAll _ _ _) as [wd1 [e|]].
    + subst tr. intros ph1 wd1. destruct (decide (reqs = [])) as [->|Hne].
      * by rewrite ProcessAllRun_empty.
      * destruct scheds as [|sched scheds].
        -- by rewrite ProcessAllRun_starved.
        -- rewrite ProcessAllRun_round by done. cbv zeta.
           destruct (executeAll _ _ _) as [wd' [e|]]; by intros [= <- _].
    + intros i ph w ph' w' Hi HSi t tk Ht.
      apply list_elem_of_lookup_2 in Hi, HSi.
      pose proof (trace_length _ _ _ _ _ Hi) as Hlen.
      pose proof (trace_length _ _ _ _ _ HSi) as Hlen'.
      destruct (lookup_lt_is_Some_2 (heap w') t) as [tk' Ht'].
      { rewrite Hlen', <- Hlen. by eapply lookup_lt_Some. }
      exists tk'. split; [done|]. left.
      destruct (trace_task _ _ _ _ _ _ _ Hi Ht) as (_ & -> & _).
      by destruct (trace_task _ _ _ _ _ _ _ HSi Ht') as (_ & -> & _).
Qed.

(** C8.  The execution phase never marks a task aborted: a task that is
    aborted after a round was aborted before it.  So on a batch that is not empty,
    when the execution phase of the first round succeeds, [validateAll]
    reports nothing, the retry step has nothing to do and the loop ends:
    the run is one execute-validate round whatever further schedules are
    on offer, the requests run are the requests of the batch, each once,
    and every task ends validated at incarnation 0. *)
Theorem ProcessAll_single_round :
  (∀ sched wd tasks wd' err t,
     executeAll sched wd tasks = (wd', err) → aborted (heap wd') t → aborted (heap wd) t)
  ∧ (∀ c sched scheds reqs wd1,
       reqs ≠ [] →
       executeAll sched (mkWorld (toTasks reqs).1 c []) (toTasks reqs).2 = (wd1, None) →
       let wd2 := mkWorld (doneTasks statusValidated reqs) (ctxErr wd1) (calls wd1) in
       ProcessAllRun c (sched :: scheds) reqs
       = ([(phToTasks, mkWorld (toTasks reqs).1 c []); (phExecute, wd1);
           (phValidate, wd2); (phRetry, wd2)],
          Return (Some (deliverTx s ctx <$> reqs), None))
       ∧ validateAll (heap wd1) (toTasks reqs).2 = (heap wd2, [], None)
       ∧ calls wd1 ≡ₚ reqs
       ∧ (∀ t tk, heap wd2 !! t = Some tk →
            Incarnation tk = 0 ∧ Status tk = statusValidated)).
Proof.
  split.
  - intros sched wd tasks wd' err t (ran & _ & -> & _)%executeAll_spec.
    unfold aborted. rewrite execTasks_lookup. destruct (decide _); [|done].
    by destruct (heap wd !! t).
  - intros c sched scheds reqs wd1 Hne Hex wd2.
    assert (wd1 = mkWorld (doneTasks statusExecuted reqs) (ctxErr wd1) reqs) as Hwd1.
    { pose proof Hex as (ran & _ & Hheap & Hcalls & Hran & _)%executeAll_spec.
      rewrite (Hran eq_refl) in Hheap, Hcalls. cbn [heap calls toTasks fst snd] in Hheap, Hcalls.
      pose proof (execTasks_fresh reqs) as Hf. pose proof (execLogs_fresh reqs) as Hl.
      cbn [toTasks fst] in Hf, Hl. rewrite Hf in Hheap. rewrite Hl, app_nil_l in Hcalls.
      destruct wd1. simpl in *. by subst. }
    assert (calls wd1 = reqs) as Hc by (by rewrite Hwd1).
    subst wd2. rewrite Hc. split_and!.
    + rewrite ProcessAllRun_round by done. cbv zeta. rewrite Hex. by rewrite <- Hwd1.
    + rewrite Hwd1. apply validateAll_executed.
    + done.
    + intros t tk. cbn [heap]. rewrite doneTasks_lookup.
      destruct (reqs !! t); by intros [= <-].
Qed.

(** * Further properties of the worker pool *)

Lemma finalPool_inv sched wd tasks :
  ∃ ran, poolInv tasks (heap wd) (calls wd) ran (finalPool sched wd tasks)
         ∧ terminal (finalPool sched wd tasks).
Proof.
  unfold finalPool.
  destruct (runSchedule_inv _ _ _ sched _ _ (spawn_inv wd tasks)) as (ran1 & Hinv1 & _).
  destruct (drain_inv _ _ _ _ _ _ Hinv1 (Nat.le_refl _)) as (ran & Hinv & _ & Hterm).
  by exists ran.
Qed.

(** [executeAll] leaks no goroutine and always closes its channel:
    whatever the schedule, when [grp.Wait()] returns the producer and
    every worker have returned and [ch] is closed; when the round reports
    no error the channel has been drained and nothing is left to send. *)
Theorem executeAll_joins_every_goroutine sched wd tasks :
  let p := finalPool sched wd tasks in
  executeAll sched wd tasks = (mkWorld (pHeap p) (pCtxErr p) (pCalls p), grpErr p)
  ∧ producer p = Exited
  ∧ Forall (λ g, g = Exited) (workerG p)
  ∧ length (workerG p) = poolSize tasks
  ∧ chClosed p = true
  ∧ (grpErr p = None → chBuf p = [] ∧ toSend p = []).
Proof.
  intros p. destruct (finalPool_inv sched wd tasks) as (ran & Hinv & Hprod & Hall).
  fold p in Hinv, Hprod, Hall. split_and!; [done|done|done| |..].
  - subst p. unfold finalPool.
    assert (∀ ev q q', step ev q = Some q' → length (workerG q') = length (workerG q)) as Hstep.
    { intros [e|pick|i pick] q q' Hq; simpl in Hq.
      - unfold cancelStep in Hq. destruct (pCtxErr q); by simplify_eq.
      - unfold producerStep in Hq. destruct (producer q); [|done].
        destruct (toSend q); [by simplify_eq|].
        destruct (select _ _ _) as [[]|]; [| |done].
        + destruct (grpReturn _ _). by simplify_eq.
        + by simplify_eq.
      - unfold workerStep in Hq. destruct (workerG q !! i) as [[]|]; [|done..].
        destruct (select _ _ _) as [[]|]; [| |done].
        + destruct (grpReturn _ _). simplify_eq. simpl. apply length_insert.
        + destruct (chBuf q); simplify_eq; simpl; [apply length_insert|done]. }
    assert (∀ sch q, length (workerG (runSchedule sch q)) = length (workerG q)) as Hrun.
    { induction sch as [|ev sch IH]; intros q; simpl; [done|].
      rewrite IH. destruct (step ev q) eqn:Hq; simpl; [by eapply Hstep|done]. }
    assert (∀ fuel q, length (workerG (drain fuel q)) = length (workerG q)) as Hdrain.
    { induction fuel as [|fuel IH]; intros q; simpl; [done|].
      destruct (nextEvent q) as [ev|]; [|done].
      rewrite IH. destruct (step ev q) eqn:Hq; simpl; [by eapply Hstep|done]. }
    rewrite Hdrain, Hrun. unfold spawn, poolSize. simpl. apply length_replicate.
  - by apply (inv_closed _ _ _ _ _ Hinv).
  - intros Hg. pose proof (terminal_clean _ _ _ _ _ Hinv (conj Hprod Hall) Hg) as ->.
    pose proof (inv_split _ _ _ _ _ Hinv) as Hsplit.
    rewrite <- (app_nil_r tasks) in Hsplit at 1.
    apply app_inv_head in Hsplit. symmetry in Hsplit.
    by apply app_eq_nil in Hsplit.
Qed.

Lemma runEnabled_steps evs : ∀ p p',
  runEnabled evs p = Some p' → (length evs + stepsLeft p' ≤ stepsLeft p)%nat.
Proof.
  induction evs as [|ev evs IH]; intros p p' Hrun; simpl in *.
  - by simplify_eq.
  - destruct (step ev p) as [p1|] eqn:Hstep; [|done]. simpl in Hrun.
    apply step_decreases in Hstep. apply IH in Hrun. lia.
Qed.

Lemma running_replicate n :
  filter (λ g, g = Running) (replicate n Running) = replicate n Running.
Proof.
  induction n as [|n IH]; [done|]. simpl.
  rewrite filter_cons_True by done. by rewrite IH.
Qed.

(** A round is over after a bounded number of steps whatever the
    scheduler does: a run of the pool in which every event is a step
    really taken (a send, a receive with its execution, a return, or the
    cancellation of the context) has at most two steps per task, one per
    worker, and two more. *)
Theorem executeAll_step_bound evs wd tasks p' :
  runEnabled evs (spawn wd tasks) = Some p' →
  (length evs ≤ 2 * length tasks + poolSize tasks + 2)%nat.
Proof.
  intros Hrun%runEnabled_steps.
  assert (stepsLeft (spawn wd tasks) ≤ 2 * length tasks + poolSize tasks + 2)%nat; [|lia].
  unfold stepsLeft, spawn, poolSize. simpl.
  rewrite running_replicate, length_replicate. destruct (ctxErr wd); lia.
Qed.

(** The producer never blocks: [ch] is made with room for the whole slice,
    so in every state the pool can reach the tasks buffered and the tasks
    still to send fit in it together, and a running producer can always
    take its next step, whichever way its [select] goes. *)
Theorem producer_never_blocks sched wd tasks pick :
  let p := runSchedule sched (spawn wd tasks) in
  chCap p = length tasks
  ∧ (length (chBuf p) + length (toSend p) ≤ chCap p)%nat
  ∧ (producer p = Running → is_Some (step (EvProducer pick) p)).
Proof.
  intros p.
  destruct (runSchedule_inv _ _ _ sched _ _ (spawn_inv wd tasks)) as (ran & Hinv & _).
  fold p in Hinv.
  assert (length (chBuf p) + length (toSend p) ≤ chCap p)%nat as Hroom.
  { pose proof (f_equal length (inv_split _ _ _ _ _ Hinv)) as Hlen.
    rewrite !length_app in Hlen. rewrite (inv_cap _ _ _ _ _ Hinv). lia. }
  split_and!; [apply (inv_cap _ _ _ _ _ Hinv)|done|].
  intros Hprod. simpl. unfold producerStep. rewrite Hprod.
  destruct (toSend p) as [|t rest] eqn:Hsend; [done|]. simpl in Hroom.
  rewrite (bool_decide_eq_true_2 (length (chBuf p) < chCap p)%nat) by lia.
  destruct (bool_decide (is_Some (gCtxErr p))), pick; simpl; try done;
    by destruct (grpReturn _ _).
Qed.

(** What a round does to the store, on any store and under any schedule:
    it executes a prefix of the slice it is given, the
    whole slice when it reports no error.  A task that was run is executed
    with the response of its own request; every other task, in the slice
    or not, is exactly as it was, so that a failed round rolls nothing
    back; the store keeps its size; and the requests run during the round
    are those of the entries of the prefix, once per entry. *)
Theorem executeAll_runs_a_prefix sched wd tasks wd' err :
  executeAll sched wd tasks = (wd', err) →
  ∃ ran, ran `prefix_of` tasks
         ∧ (err = None → ran = tasks)
         ∧ length (heap wd') = length (heap wd)
         ∧ (∀ t, heap wd' !! t
                 = if decide (t ∈ ran) then executed <$> heap wd !! t else heap wd !! t)
         ∧ ∃ new, calls wd' = calls wd ++ new ∧ new ≡ₚ execLogs (heap wd) ran.
Proof.
  intros (ran & Hpre & Hheap & Hcalls & Hran & _)%executeAll_spec.
  exists ran. split_and!; [done|done|..].
  - rewrite Hheap. apply execTasks_length.
  - intros t. rewrite Hheap. apply execTasks_lookup.
  - by exists (execLogs (heap wd) ran).
Qed.

Lemma step_ctx_stays ev p p' e :
  step ev p = Some p' → pCtxErr p = Some e → pCtxErr p' = Some e.
Proof.
  intros Hstep Hc. destruct ev as [e'|pick|i pick]; simpl in Hstep.
  - unfold cancelStep in Hstep. by rewrite Hc in Hstep.
  - unfold producerStep in Hstep. destruct (producer p); [|done].
    destruct (toSend p); [by simplify_eq|].
    destruct (select _ _ _) as [[]|]; [| |done].
    + destruct (grpReturn _ _). by simplify_eq.
    + by simplify_eq.
  - unfold workerStep in Hstep. destruct (workerG p !! i) as [[]|]; [|done..].
    destruct (select _ _ _) as [[]|]; [| |done].
    + destruct (grpReturn _ _). by simplify_eq.
    + destruct (chBuf p); by simplify_eq.
Qed.

Lemma runSchedule_ctx_stays sched e : ∀ p,
  pCtxErr p = Some e → pCtxErr (runSchedule sched p) = Some e.
Proof.
  induction sched as [|ev sched IH]; intros p Hc; simpl; [done|].
  apply IH. destruct (step ev p) eqn:Hstep; simpl; [by eapply step_ctx_stays|done].
Qed.

Lemma drain_ctx_stays fuel e : ∀ p,
  pCtxErr p = Some e → pCtxErr (drain fuel p) = Some e.
Proof.
  induction fuel as [|fuel IH]; intros p Hc; simpl; [done|].
  destruct (nextEvent p) as [ev|]; [|done].
  apply IH. destruct (step ev p) eqn:Hstep; simpl; [by eapply step_ctx_stays|done].
Qed.

(** The only error [executeAll] returns is the error of the caller's
    context.  An error returned is the [Err()] of the context, which is
    done by then; a context that was done on entry is still done, with
    the same error, on return; and a round at whose end the context is
    still live, or during which it was never cancelled, returns nil. *)
Theorem executeAll_fails_only_by_context sched wd tasks wd' err :
  executeAll sched wd tasks = (wd', err) →
  (∀ e, err = Some e → ctxErr wd' = Some e)
  ∧ (∀ e, ctxErr wd = Some e → ctxErr wd' = Some e)
  ∧ (ctxErr wd' = None → err = None)
  ∧ (ctxErr wd = None → Forall (λ ev, isCancel ev = false) sched → err = None).
Proof.
  intros Hex. pose proof Hex as (ran & _ & _ & _ & _ & Herr)%executeAll_spec.
  split_and!.
  - done.
  - intros e Hc. unfold executeAll in Hex. injection Hex as <- _. simpl.
    by apply drain_ctx_stays, runSchedule_ctx_stays.
  - intros Hc. destruct err as [e|]; [|done]. rewrite (Herr e eq_refl) in Hc. done.
  - intros Hc Hlive. pose proof (executeAll_live sched wd tasks Hc Hlive) as H.
    by rewrite Hex in H.
Qed.

(** The steps [grp.Wait()] waits for take the channel case: they record no
    error and leave the context alone. *)
Lemma nextEvent_step_calm T h0 c0 ran p ev p' :
  poolInv T h0 c0 ran p → nextEvent p = Some ev → step ev p = Some p' →
  grpErr p' = grpErr p ∧ pCtxErr p' = pCtxErr p.
Proof.
  intros Hinv Hev Hstep. unfold nextEvent in Hev.
  destruct (producer p) eqn:Hprod.
  - simplify_eq. simpl in Hstep. unfold producerStep in Hstep. rewrite Hprod in Hstep.
    destruct (toSend p) as [|t rest] eqn:Hsend; [by simplify_eq|].
    assert (length (chBuf p) < chCap p)%nat as Hroom.
    { pose proof (f_equal length (inv_split _ _ _ _ _ Hinv)) as Hlen.
      rewrite !length_app, Hsend in Hlen. simpl in Hlen.
      rewrite (inv_cap _ _ _ _ _ Hinv). lia. }
    rewrite (bool_decide_eq_true_2 _ Hroom) in Hstep.
    destruct (bool_decide (is_Some (gCtxErr p))); simpl in Hstep; by simplify_eq.
  - apply fmap_Some in Hev as [[i g] [Hfind ->]].
    apply list_find_Some in Hfind as (Hi & -> & _). simpl in Hstep.
    unfold workerStep in Hstep. rewrite Hi in Hstep.
    assert (chClosed p = true) as Hcl by (by apply (inv_closed _ _ _ _ _ Hinv)).
    rewrite Hcl, orb_true_r in Hstep.
    destruct (bool_decide (is_Some (gCtxErr p))); simpl in Hstep;
      destruct (chBuf p); by simplify_eq.
Qed.

Lemma drain_calm T h0 c0 fuel : ∀ ran p,
  poolInv T h0 c0 ran p →
  grpErr (drain fuel p) = grpErr p ∧ pCtxErr (drain fuel p) = pCtxErr p.
Proof.
  induction fuel as [|fuel IH]; intros ran p Hinv; simpl; [done|].
  destruct (nextEvent p) as [ev|] eqn:Hev; [|done].
  destruct (nextEvent_enabled _ _ _ _ _ _ Hinv Hev) as [p' Hstep].
  rewrite Hstep. simpl.
  destruct (step_inv _ _ _ _ _ _ _ Hinv Hstep) as (ran1 & Hinv1 & _).
  destruct (nextEvent_step_calm _ _ _ _ _ _ _ Hinv Hev Hstep) as [<- <-].
  by eapply IH.
Qed.

(** Once the producer has returned and the buffer is empty, the workers
    still running find the channel closed and return: nothing else moves. *)
Lemma drain_idle fuel : ∀ p,
  producer p = Exited → chBuf p = [] → chClosed p = true →
  pHeap (drain fuel p) = pHeap p ∧ pCalls (drain fuel p) = pCalls p
  ∧ pCtxErr (drain fuel p) = pCtxErr p ∧ grpErr (drain fuel p) = grpErr p.
Proof.
  induction fuel as [|fuel IH]; intros p Hprod Hbuf Hcl; simpl; [done|].
  unfold nextEvent. rewrite Hprod.
  destruct (list_find _ (workerG p)) as [[i g]|] eqn:Hfind; simpl; [|done].
  apply list_find_Some in Hfind as (Hi & -> & _).
  unfold workerStep. rewrite Hi, Hcl, Hbuf, orb_true_r.
  destruct (bool_decide (is_Some (gCtxErr p))); simpl;
    (destruct (IH (mkPool (pHeap p) (pCalls p) (pCtxErr p) (gCtxErr p) (grpErr p)
                     [] (chCap p) true (producer p) (toSend p)
                     (<[i:=Exited]> (workerG p)))) as (-> & -> & -> & ->); done).
Qed.

(** Cancellation is best effort.  On a context that is already done when
    [executeAll] is called, the round may still run every task and return
    nil (under the empty schedule the producer and then the workers find
    their channel case ready each time and take it), and it may as well
    return the context's error without having run a single task (the
    producer takes the done case of its first [select]). *)
Theorem executeAll_cancellation_best_effort wd tasks e :
  ctxErr wd = Some e → tasks ≠ [] →
  executeAll [] wd tasks
  = (mkWorld (execTasks (heap wd) tasks) (Some e)
       (calls wd ++ execLogs (heap wd) tasks), None)
  ∧ executeAll [EvProducer PickDone] wd tasks = (wd, Some e).
Proof.
  intros Hc Hne. split.
  - destruct (executeAll [] wd tasks) as [wd' err] eqn:Hex.
    pose proof Hex as (ran & _ & Hheap & Hcalls & Hran & _)%executeAll_spec.
    unfold executeAll in Hex. simpl in Hex. injection Hex as Hwd Herr.
    destruct (drain_calm _ _ _ (stepsLeft (spawn wd tasks)) _ _ (spawn_inv wd tasks))
      as [Hg Hctx].
    rewrite Hg in Herr. simpl in Herr. subst err.
    rewrite (Hran eq_refl) in Hheap, Hcalls.
    rewrite <- Hwd in Hheap, Hcalls |- *. simpl in Hheap, Hcalls.
    rewrite Hheap, Hcalls, Hctx. simpl. by rewrite Hc.
  - destruct tasks as [|t ts]; [done|]. unfold executeAll. simpl runSchedule.
    unfold producerStep. cbn [producer spawn toSend gCtxErr chBuf chCap grpErr
      pHeap pCalls pCtxErr chClosed workerG].
    rewrite Hc. rewrite bool_decide_eq_true_2 by (by eexists).
    rewrite bool_decide_eq_true_2 by (simpl; lia).
    cbn [select grpReturn default]. cbn -[drain stepsLeft].
    match goal with |- context [drain ?f ?p] =>
      destruct (drain_idle f p) as (-> & -> & -> & ->); [done..|] end.
    simpl. destruct wd; simpl in *. by subst.
Qed.

(** * Further properties of the scheduler *)

(** [collectResponses] panics exactly when some task of the slice has a
    nil [Response]; otherwise it returns one response per entry of the
    slice, in slice order, each the response its task holds. *)
Theorem collectResponses_panics_iff_nil h tasks :
  (collectResponses h tasks = None ↔ ∃ t, t ∈ tasks ∧ h !! t ≫= Response = None)
  ∧ (∀ rs, collectResponses h tasks = Some rs →
       length rs = length tasks
       ∧ ∀ i t, tasks !! i = Some t → h !! t ≫= Response = rs !! i).
Proof.
  split.
  - induction tasks as [|t ts IH]; simpl.
    + split; [done|]. intros (t & Hin & _). by apply not_elem_of_nil in Hin.
    + destruct (h !! t ≫= Response) as [r|] eqn:Hr.
      * rewrite fmap_None, IH. split.
        -- intros (t' & Hin & Ht'). exists t'. split; [by right|done].
        -- intros (t' & [->|Hin]%elem_of_cons & Ht'); [congruence|by exists t'].
      * split; [|done]. intros _. exists t. split; [by left|done].
  - intros rs Hall%collectResponses_Some. split.
    + symmetry. by eapply Forall2_length.
    + intros i t Ht. destruct (Forall2_lookup_l _ _ _ _ _ Hall Ht) as (r & Hr & Hresp).
      by rewrite Hr.
Qed.

Lemma foldl_alter_notin {A} (f : A → A) (ts : list ptr) (t : ptr) : ∀ h : list A,
  t ∉ ts → foldl (λ h t, alter f t h) h ts !! t = h !! t.
Proof.
  induction ts as [|t' ts IH]; intros h Hnin; simpl; [done|].
  apply not_elem_of_cons in Hnin as [Hne Hnin].
  rewrite IH by done. by apply list_lookup_alter_ne.
Qed.

(** After a round of validation, retry and successful re-execution, no
    task of the slice is aborted any more. *)
Lemma second_round_clean h tasks :
  filter (aborted (execTasks (retryLoop (validateAll h tasks).1.1
                                (filter (aborted h) tasks))
                     (filter (aborted h) tasks)))
         tasks = [].
Proof.
  apply filter_none. intros t Hin. unfold aborted at 1.
  rewrite execTasks_lookup. destruct (decide (t ∈ filter (aborted h) tasks)) as [Hfl|Hfl].
  - by destruct (retryLoop _ _ !! t).
  - rewrite retryLoop_eq, foldl_alter_notin by done.
    rewrite validateAll_lookup, decide_True by done.
    destruct (h !! t) as [tk|] eqn:Ht; simpl; [|done].
    intros [= Hst]. apply (proj1 (validated_aborted tk)) in Hst. apply Hfl.
    apply list_elem_of_filter. split; [|done]. unfold aborted. rewrite Ht. simpl.
    by rewrite Hst.
Qed.

(** The loop of [ProcessAll] cannot spin: from any store, any slice and any
    set of tasks to execute, it is over after two rounds at most.  A round
    only ever leaves the tasks it ran executed, and validation only
    reports aborted tasks, so whatever the first validation reports is
    gone after the second round. *)
Theorem processLoop_two_rounds_at_most sched1 sched2 scheds wd tasks toExecute tr :
  (processLoop (sched1 :: sched2 :: scheds) wd tasks toExecute tr).2 ≠ OutOfSchedules
  ∧ (processLoop (sched1 :: sched2 :: scheds) wd tasks toExecute tr).2
    = (processLoop [sched1; sched2] wd tasks toExecute tr).2.
Proof.
  destruct toExecute as [|t0 ts0]; [rewrite !processLoop_nil; simpl; by destruct (collectResponses _ _)|].
  cbn [processLoop].
  destruct (executeAll sched1 wd (t0 :: ts0)) as [wd1 [e|]] eqn:Hex1; [done|].
  rewrite validateAll_eq. cbv iota beta.
  pose proof (validateAll_eq (heap wd1) tasks) as Hv1.
  set (fl := filter (aborted (heap wd1)) tasks) in *.
  destruct fl as [|t1 ts1] eqn:Hfl.
  { rewrite ?processLoop_nil. simpl. by destruct (collectResponses _ _). }
  cbn [processLoop]. cbn [heap ctxErr calls].
  set (wd2 := mkWorld _ _ _).
  destruct (executeAll sched2 wd2 (t1 :: ts1)) as [wd3 [e|]] eqn:Hex2; [done|].
  apply executeAll_spec in Hex2 as (ran & _ & Hheap & _ & Hran & _).
  rewrite (Hran eq_refl) in Hheap. subst wd2. cbn [heap] in Hheap.
  rewrite validateAll_eq. cbv iota beta.
  assert (filter (aborted (heap wd3)) tasks = []) as ->.
  { rewrite Hheap. rewrite <- Hfl. subst fl.
    replace (foldl _ (heap wd1) tasks) with (validateAll (heap wd1) tasks).1.1
      by (by rewrite Hv1).
    apply second_round_clean. }
  rewrite ?processLoop_nil. simpl. by destruct (collectResponses _ _).
Qed.

Lemma execLogs_app h ts1 ts2 : execLogs h (ts1 ++ ts2) = execLogs h ts1 ++ execLogs h ts2.
Proof. unfold execLogs. apply bind_app. Qed.

(** The call log of every snapshot of a run. *)
Lemma trace_calls c scheds reqs ph wd :
  (ph, wd) ∈ (ProcessAllRun c scheds reqs).1 → calls wd `prefix_of` reqs.
Proof.
  destruct (decide (reqs = [])) as [->|Hne].
  - rewrite ProcessAllRun_empty. simpl. by intros [= -> ->]%list_elem_of_singleton.
  - destruct scheds as [|sched scheds].
    + rewrite ProcessAllRun_starved by done. simpl.
      intros [= -> ->]%list_elem_of_singleton. apply prefix_nil.
    + rewrite ProcessAllRun_round by done. cbv zeta.
      destruct (executeAll _ _ _) as [wd1 [e|]] eqn:Hex; simpl.
      * apply executeAll_spec in Hex as (ran & [rest Hpre] & _ & Hcalls & _).
        rewrite !elem_of_cons, elem_of_nil.
        intros [[= -> ->]|[[= -> ->]|[]]]; [apply prefix_nil|].
        rewrite Hcalls. cbn [calls toTasks fst snd] in *. rewrite app_nil_l.
        pose proof (execLogs_fresh reqs) as Hall. cbn [toTasks fst] in Hall.
        rewrite Hpre, execLogs_app in Hall. rewrite <- Hall at 2.
        by apply prefix_app_r.
      * rewrite !elem_of_cons, elem_of_nil.
        intros [[= -> ->]|[[= -> ->]|[[= -> ->]|[[= -> ->]|[]]]]]; simpl;
          done || apply prefix_nil.
Qed.

(** Throughout a run of [ProcessAll], task [i] is the task of request
    [i]: after every phase the store holds one task per request, and the
    [Index] of the task at position [i] is [i] and its [Request] is
    request [i].  Neither field is ever written after [toTasks]. *)
Theorem ProcessAll_keeps_index_and_request c scheds reqs ph wd :
  (ph, wd) ∈ (ProcessAllRun c scheds reqs).1 →
  length (heap wd) = length reqs
  ∧ (∀ t tk, heap wd !! t = Some tk →
       Index tk = Z.of_nat t ∧ reqs !! t = Some (Request tk)).
Proof.
  intros Hin. split; [by eapply trace_length|]. intros t tk.
  apply trace_heaps in Hin as [[ran ->]| ->].
  - rewrite execTasks_lookup, toTasks_lookup.
    destruct (reqs !! t) as [r|], (decide (t ∈ ran)); by intros [= <-].
  - rewrite doneTasks_lookup. destruct (reqs !! t) as [r|]; by intros [= <-].
Qed.

(** In every run of [ProcessAll], failed or not, no request is run twice
    and the requests are taken up from the front of the batch: after every
    phase the requests run so far are, up to the order in which they were
    run, those of a prefix of the batch. *)
Theorem ProcessAll_runs_each_request_at_most_once c scheds reqs ph wd :
  (ph, wd) ∈ (ProcessAllRun c scheds reqs).1 →
  (∃ pre, pre `prefix_of` reqs ∧ calls wd ≡ₚ pre)
  ∧ (length (calls wd) ≤ length reqs)%nat.
Proof.
  intros Hpre%trace_calls. split; [by exists (calls wd)|]. by apply prefix_length.
Qed.

End Scheduler.

(** C5.  A configured worker count of 0 or less makes [executeAll] behave
    exactly as a worker count equal to the length of the slice it is
    given: under every schedule, both leave the same store, the same
    context, the same calls of [deliverTx] and return the same error. *)
Theorem executeAll_workers_below_one {sdkContext RequestDeliverTx ResponseDeliverTx : Type}
    (f : sdkContext → RequestDeliverTx → ResponseDeliverTx) (ctx : sdkContext)
    (w : Z) (sched : schedule) (wd : world) (tasks : list ptr) :
  w ≤ 0 →
  executeAll (NewScheduler w f) ctx sched wd tasks
  = executeAll (NewScheduler (Z.of_nat (length tasks)) f) ctx sched wd tasks.
Proof.
  intros Hw.
  assert (spawn (NewScheduler w f) wd tasks
          = spawn (NewScheduler (Z.of_nat (length tasks)) f) wd tasks) as Hspawn.
  { unfold spawn. cbn [workers].
    rewrite (bool_decide_eq_true_2 (w < 1)) by lia.
    by destruct (bool_decide (Z.of_nat (length tasks) < 1)). }
  unfold executeAll. rewrite Hspawn. reflexivity.
Qed.

(** * The contract at work on a small batch *)

(** A scheduler over numbers: the response to a request is ten times the
    request. *)
Definition tenfold (w : Z) : @scheduler unit nat nat :=
  NewScheduler w (λ _ r, (r * 10)%nat).

(** Two workers finish the batch although the context is cancelled after
    the first task went through. *)
Definition busyRound : schedule :=
  [EvProducer PickChan; EvWorker 1 PickChan; EvCancel Canceled;
   EvProducer PickChan; EvWorker 0 PickChan].

(** The context is cancelled and a worker notices. *)
Definition cancelledRound : schedule :=
  [EvProducer PickChan; EvWorker 1 PickChan; EvCancel Canceled; EvWorker 0 PickDone].

(** A quiet round: the producer and the workers take turns. *)
Definition quietRound : schedule :=
  [EvProducer PickChan; EvWorker 1 PickChan; EvWorker 0 PickChan; EvProducer PickChan].

(** A store with one aborted task between a validated and a pending one. *)
Definition mixedStore : list (@deliverTxTask nat nat) :=
  [mkTask statusValidated 0 0 4%nat (Some 40%nat);
   mkTask statusAborted 1 0 5%nat None;
   mkTask statusPending 2 0 6%nat None].

(** C1 on three requests, two workers and a live context. *)
Lemma ProcessAll_sequential_witness :
  ProcessAll (tenfold 2) () None [quietRound] [1; 2; 3]%nat
  = Return (Some [10; 20; 30]%nat, None).
Proof.
  destruct (ProcessAll_sequential (tenfold 2) () None quietRound [] [1; 2; 3]%nat)
    as (_ & Hlive & _).
  apply Hlive; [reflexivity|]. unfold quietRound. repeat constructor.
Defined.

(** C2 on the aborted task of [mixedStore]. *)
Lemma retry_keeps_response_invariant_witness :
  ∃ tk', retryLoop mixedStore [1%nat] !! 1%nat = Some tk'
         ∧ Incarnation tk' = 0 + 1
         ∧ Status tk' = statusPending
         ∧ Response tk' = None.
Proof.
  destruct (retry_keeps_response_invariant (tenfold 2) ()) as [Hretry _].
  destruct (Hretry mixedStore [0; 1]%nat
              [mkTask statusValidated 0 0 4%nat (Some 40%nat);
               mkTask statusAborted 1 0 5%nat None;
               mkTask statusPending 2 0 6%nat None]
              [1%nat] None) as [Hflag _].
  - reflexivity.
  - apply (bool_decide_unpack _). reflexivity.
  - apply Forall_lookup_2.
    intros [|[|[|i]]] tk; intros [= <-]; unfold responseInv; simpl.
    + split; [by right|by eexists].
    + split; [by intros [? ?]|by intros [|]].
    + split; [by intros [? ?]|by intros [|]].
  - apply (Hflag 1%nat (mkTask statusAborted 1 0 5%nat None)).
    + apply (bool_decide_unpack _). reflexivity.
    + reflexivity.
    + simpl. unfold int_min, int_max. lia.
Defined.

(** C3 on [mixedStore]. *)
Lemma validateAll_flags_aborted_witness :
  [1%nat] = filter (aborted mixedStore) [0; 1; 2]%nat
  ∧ validateAll mixedStore [0; 1; 2]%nat
    = ([mkTask statusValidated 0 0 4%nat (Some 40%nat);
        mkTask statusAborted 1 0 5%nat None;
        mkTask statusValidated 2 0 6%nat None], [1%nat], None).
Proof.
  split; [|reflexivity].
  apply (validateAll_flags_aborted mixedStore [0; 1; 2]%nat
           [mkTask statusValidated 0 0 4%nat (Some 40%nat);
            mkTask statusAborted 1 0 5%nat None;
            mkTask statusValidated 2 0 6%nat None] [1%nat] None).
  reflexivity.
Defined.

(** C4: a worker sees the cancellation and the batch fails. *)
Lemma executeAll_error_fails_batch_witness :
  ProcessAll (tenfold 2) () None [cancelledRound] [1; 2; 3]%nat
  = Return (None, Some Canceled).
Proof.
  destruct (executeAll_error_fails_batch (tenfold 2) ()) as [_ Hfail].
  apply (Hfail None cancelledRound [] [1; 2; 3]%nat
           (mkWorld (doneTasks (tenfold 2) () statusExecuted [1; 2; 3]%nat)
              (Some Canceled) [1; 2; 3]%nat) Canceled).
  - discriminate.
  - vm_compute. reflexivity.
Defined.

(** C5: a worker count of -3 on a slice of two tasks, against two workers. *)
Lemma executeAll_workers_below_one_witness :
  executeAll (tenfold (-3)) () busyRound (mkWorld mixedStore None []) [2; 1]%nat
  = executeAll (tenfold 2) () busyRound (mkWorld mixedStore None []) [2; 1]%nat.
Proof.
  apply (executeAll_workers_below_one (λ _ r, (r * 10)%nat) () (-3) busyRound
           (mkWorld mixedStore None []) [2; 1]%nat).
  lia.
Defined.

(** C6: the retry step on [mixedStore], for the task it is given and for
    another one. *)
Lemma incarnation_only_grows_witness :
  Incarnation <$> retryLoop mixedStore [1%nat] !! 1%nat = Some 1
  ∧ Incarnation <$> retryLoop mixedStore [1%nat] !! 0%nat = Some 0.
Proof.
  destruct (incarnation_only_grows (tenfold 2) ()) as (_ & _ & _ & Hretry & _).
  split.
  - apply (Hretry mixedStore [1%nat] 1%nat (mkTask statusAborted 1 0 5%nat None)).
    + apply (bool_decide_unpack _). reflexivity.
    + reflexivity.
    + simpl. unfold int_min, int_max. lia.
  - apply (Hretry mixedStore [1%nat] 0%nat (mkTask statusValidated 0 0 4%nat (Some 40%nat))).
    + apply (bool_decide_unpack _). reflexivity.
    + reflexivity.
    + simpl. unfold int_min, int_max. lia.
Defined.

(** C7 on the validated task of [mixedStore]. *)
Lemma validateAll_idempotent_witness :
  validateAll mixedStore [0; 1; 2]%nat
  = ([mkTask statusValidated 0 0 4%nat (Some 40%nat);
      mkTask statusAborted 1 0 5%nat None;
      mkTask statusValidated 2 0 6%nat None], [1%nat], None)
  ∧ [mkTask statusValidated 0 0 4%nat (Some 40%nat);
     mkTask statusAborted 1 0 5%nat None;
     mkTask statusValidated 2 0 6%nat None] !! 0%nat
    = Some (mkTask statusValidated 0 0 4%nat (Some 40%nat))
  ∧ (0%nat ∉ [1%nat])
  ∧ validateAll [mkTask statusValidated 0 0 4%nat (Some 40%nat);
                 mkTask statusAborted 1 0 5%nat None;
                 mkTask statusValidated 2 0 6%nat None] [0; 1; 2]%nat
    = ([mkTask statusValidated 0 0 4%nat (Some 40%nat);
        mkTask statusAborted 1 0 5%nat None;
        mkTask statusValidated 2 0 6%nat None], [1%nat], None).
Proof.
  split; [reflexivity|].
  apply (validateAll_idempotent mixedStore [0; 1; 2]%nat _ [1%nat] None 0%nat
           (mkTask statusValidated 0 0 4%nat (Some 40%nat))); reflexivity.
Defined.

(** C8: one round although a second schedule is on offer. *)
Lemma ProcessAll_single_round_witness :
  (ProcessAllRun (tenfold 2) () None [busyRound; cancelledRound] [1; 2; 3]%nat).2
  = Return (Some [10; 20; 30]%nat, None)
  ∧ length (ProcessAllRun (tenfold 2) () None [busyRound; cancelledRound] [1; 2; 3]%nat).1
    = 4%nat.
Proof.
  destruct (ProcessAll_single_round (tenfold 2) ()) as [_ Hround].
  destruct (Hround None busyRound [cancelledRound] [1; 2; 3]%nat
              (mkWorld (doneTasks (tenfold 2) () statusExecuted [1; 2; 3]%nat)
                 (Some Canceled) [1; 2; 3]%nat)) as (Hrun & _).
  - discriminate.
  - vm_compute. reflexivity.
  - rewrite Hrun. split; vm_compute; reflexivity.
Defined.

(** C9 on three requests with one worker per task. *)
Lemma collectResponses_never_nil_witness :
  ProcessAll (tenfold 0) () None [quietRound] [1; 2; 3]%nat ≠ NilDeref
  ∧ ∃ ph wd,
      last [(phToTasks, mkWorld (toTasks (ResponseDeliverTx := nat) [1; 2; 3]%nat).1 None []);
            (phExecute, mkWorld (doneTasks (tenfold 0) () statusExecuted [1; 2; 3]%nat)
                          None [1; 2; 3]%nat);
            (phValidate, mkWorld (doneTasks (tenfold 0) () statusValidated [1; 2; 3]%nat)
                           None [1; 2; 3]%nat);
            (phRetry, mkWorld (doneTasks (tenfold 0) () statusValidated [1; 2; 3]%nat)
                        None [1; 2; 3]%nat)]
      = Some (ph, wd)
      ∧ length (heap wd) = length [1; 2; 3]%nat
      ∧ Forall (λ tk, is_Some (Response tk)) (heap wd)
      ∧ Some [10; 20; 30]%nat = collectResponses (heap wd) (toTasks (ResponseDeliverTx := nat) [1; 2; 3]%nat).2
      ∧ is_Some (Some [10; 20; 30]%nat).
Proof.
  destruct (collectResponses_never_nil (tenfold 0) () None [quietRound] [1; 2; 3]%nat)
    as [Hno Hsafe].
  split; [exact Hno|]. apply Hsafe. vm_compute. reflexivity.
Defined.

(** * More of the contract at work *)


(** A round in which every step is taken: two sends, two receives, the
    cancellation, the return of the producer and of both workers. *)
Definition fullRound : schedule :=
  [EvProducer PickChan; EvWorker 1 PickChan; EvProducer PickChan; EvWorker 0 PickChan;
   EvCancel Canceled; EvProducer PickChan; EvWorker 0 PickDone; EvWorker 1 PickChan].

(** A failed round on [mixedStore]: the tasks it ran, and only they, are
    executed. *)
Lemma executeAll_runs_a_prefix_witness :
  ∃ ran, ran `prefix_of` [2; 1]%nat
         ∧ (Some Canceled = None → ran = [2; 1]%nat)
         ∧ length [mkTask statusValidated 0 0 4%nat (Some 40%nat);
                   mkTask statusExecuted 1 0 5%nat (Some 50%nat);
                   mkTask statusExecuted 2 0 6%nat (Some 60%nat)]
           = length mixedStore
         ∧ (∀ t, [mkTask statusValidated 0 0 4%nat (Some 40%nat);
                  mkTask statusExecuted 1 0 5%nat (Some 50%nat);
                  mkTask statusExecuted 2 0 6%nat (Some 60%nat)] !! t
                 = if decide (t ∈ ran) then executed (tenfold 2) () <$> mixedStore !! t
                   else mixedStore !! t)
         ∧ ∃ new, [6; 5]%nat = [] ++ new ∧ new ≡ₚ execLogs mixedStore ran.
Proof.
  apply (executeAll_runs_a_prefix (tenfold 2) () fullRound (mkWorld mixedStore None [])
           [2; 1]%nat
           (mkWorld [mkTask statusValidated 0 0 4%nat (Some 40%nat);
                     mkTask statusExecuted 1 0 5%nat (Some 50%nat);
                     mkTask statusExecuted 2 0 6%nat (Some 60%nat)]
              (Some Canceled) [6; 5]%nat)
           (Some Canceled)).
  vm_compute. reflexivity.
Defined.

(** The bound is reached: eight steps on two tasks and two workers. *)
Lemma executeAll_step_bound_witness :
  (length fullRound ≤ 2 * length [2; 1]%nat + poolSize (tenfold 2) [2; 1]%nat + 2)%nat
  ∧ length fullRound = 8%nat.
Proof.
  split; [|reflexivity].
  destruct (runEnabled (tenfold 2) () fullRound
              (spawn (tenfold 2) (mkWorld mixedStore None []) [2; 1]%nat)) as [p'|] eqn:Hrun.
  - exact (executeAll_step_bound (tenfold 2) () fullRound (mkWorld mixedStore None [])
             [2; 1]%nat p' Hrun).
  - vm_compute in Hrun. discriminate.
Defined.

(** After one send the producer is running and can go on. *)
Lemma producer_never_blocks_witness :
  is_Some (step (tenfold 2) () (EvProducer PickDone)
             (runSchedule (tenfold 2) () [EvProducer PickChan; EvCancel Canceled]
                (spawn (tenfold 2) (mkWorld mixedStore None []) [2; 1]%nat))).
Proof.
  destruct (producer_never_blocks (tenfold 2) () [EvProducer PickChan; EvCancel Canceled]
              (mkWorld mixedStore None []) [2; 1]%nat PickDone) as (_ & _ & Hgo).
  apply Hgo. vm_compute. reflexivity.
Defined.

(** The error of a failed round is the one the context is done with. *)
Lemma executeAll_fails_only_by_context_witness :
  ctxErr (mkWorld [mkTask statusValidated 0 0 4%nat (Some 40%nat);
                   mkTask statusExecuted 1 0 5%nat (Some 50%nat);
                   mkTask statusExecuted 2 0 6%nat (Some 60%nat)]
            (Some Canceled) [6; 5]%nat)
  = Some Canceled.
Proof.
  destruct (executeAll_fails_only_by_context (tenfold 2) () fullRound
              (mkWorld mixedStore None []) [2; 1]%nat
              (mkWorld [mkTask statusValidated 0 0 4%nat (Some 40%nat);
                        mkTask statusExecuted 1 0 5%nat (Some 50%nat);
                        mkTask statusExecuted 2 0 6%nat (Some 60%nat)]
                 (Some Canceled) [6; 5]%nat)
              (Some Canceled)) as [Herr _].
  - vm_compute. reflexivity.
  - apply Herr. reflexivity.
Defined.

(** Both outcomes on a context cancelled before the round. *)
Lemma executeAll_cancellation_best_effort_witness :
  executeAll (tenfold 2) () [] (mkWorld mixedStore (Some Canceled) []) [2; 1]%nat
  = (mkWorld (execTasks (tenfold 2) () mixedStore [2; 1]%nat) (Some Canceled)
       ([] ++ execLogs mixedStore [2; 1]%nat), None)
  ∧ executeAll (tenfold 2) () [EvProducer PickDone]
      (mkWorld mixedStore (Some Canceled) []) [2; 1]%nat
    = (mkWorld mixedStore (Some Canceled) [], Some Canceled).
Proof.
  apply (executeAll_cancellation_best_effort (tenfold 2) ()
           (mkWorld mixedStore (Some Canceled) []) [2; 1]%nat Canceled).
  - reflexivity.
  - discriminate.
Defined.

(** Collecting the validated task of [mixedStore] twice. *)
Lemma collectResponses_panics_iff_nil_witness :
  length [40; 40]%nat = length [0; 0]%nat
  ∧ ∀ i t, [0; 0]%nat !! i = Some t → mixedStore !! t ≫= Response = [40; 40]%nat !! i.
Proof.
  destruct (collectResponses_panics_iff_nil mixedStore [0; 0]%nat) as [_ Hsome].
  apply Hsome. vm_compute. reflexivity.
Defined.

(** The store a failed run leaves still has task [1] for request [1]. *)
Lemma ProcessAll_keeps_index_and_request_witness :
  length (doneTasks (tenfold 2) () statusExecuted [1; 2; 3]%nat) = 3%nat
  ∧ ∀ t tk, doneTasks (tenfold 2) () statusExecuted [1; 2; 3]%nat !! t = Some tk →
            Index tk = Z.of_nat t ∧ [1; 2; 3]%nat !! t = Some (Request tk).
Proof.
  apply (ProcessAll_keeps_index_and_request (tenfold 2) () None [cancelledRound]
           [1; 2; 3]%nat phExecute
           (mkWorld (doneTasks (tenfold 2) () statusExecuted [1; 2; 3]%nat)
              (Some Canceled) [1; 2; 3]%nat)).
  apply (list_elem_of_lookup_2 _ 1%nat). vm_compute. reflexivity.
Defined.

(** The requests run in a failed run. *)
Lemma ProcessAll_runs_each_request_at_most_once_witness :
  (∃ pre, pre `prefix_of` [1; 2; 3]%nat ∧ [1; 2; 3]%nat ≡ₚ pre)
  ∧ (length [1; 2; 3]%nat ≤ length [1; 2; 3]%nat)%nat.
Proof.
  apply (ProcessAll_runs_each_request_at_most_once (tenfold 2) () None [cancelledRound]
           [1; 2; 3]%nat phExecute
           (mkWorld (doneTasks (tenfold 2) () statusExecuted [1; 2; 3]%nat)
              (Some Canceled) [1; 2; 3]%nat)).
  apply (list_elem_of_lookup_2 _ 1%nat). vm_compute. reflexivity.
Defined.


(** A quiet round ends with the channel closed and empty. *)
Lemma executeAll_joins_every_goroutine_witness :
  chBuf (finalPool (tenfold 2) () quietRound (mkWorld mixedStore None []) [2; 1]%nat) = []
  ∧ toSend (finalPool (tenfold 2) () quietRound (mkWorld mixedStore None []) [2; 1]%nat) = [].
Proof.
  destruct (executeAll_joins_every_goroutine (tenfold 2) () quietRound
              (mkWorld mixedStore None []) [2; 1]%nat) as (_ & _ & _ & _ & _ & Hclean).
  apply Hclean. vm_compute. reflexivity.
Defined.

